(** * Dataset evaluation engine of [langchain/client/langchain.py]

    A shallow embedding of the evaluation part of [LangChainPlusClient]:
    [run_llm] / [_arun_llm], [run_llm_or_chain] / [_arun_llm_or_chain],
    [_gather_with_concurrency], [arun_on_dataset] and [run_on_dataset].

    Python objects that the module only calls into (the language model, the
    chain built by the factory, the tracer's session set-up, formatting of
    values inside f-strings) are the fields of the class [Runtime]; the
    module's own control flow is written out over an exception-and-state
    monad.  Tracers are mutable objects handed around by reference, so they
    live in a heap and the code holds handles. *)

From stdpp Require Import base gmap strings list fin_maps pretty.
From Stdlib Require Import ZArith Lia Ascii.

(** ** Python exceptions *)

(** [except Exception] catches the classes derived from [Exception] and lets
    the remaining [BaseException] classes (KeyboardInterrupt, SystemExit,
    GeneratorExit, ...) through. *)
Inductive exn_class : Type :=
| ValueError
| UnboundLocalError
| ExceptionSubclass (name : string)
| BaseExceptionOnly (name : string).

Record exn : Type := mkExn { exn_cls : exn_class; exn_str : string }.

Definition is_Exception (e : exn) : bool :=
  match exn_cls e with
  | BaseExceptionOnly _ => false
  | _ => true
  end.

Inductive res (A : Type) : Type :=
| Ret (a : A)
| Raise (e : exn).
Arguments Ret {A} a.
Arguments Raise {A} e.

(** ** Data model *)

(** A UUID is kept in its canonical text form, so [str(example.id)] is the
    identifier itself. *)
Abbreviation UUID := string.

Abbreviation Handle := nat.

Inductive Mode : Type := Sync | Async.

(** What the module needs from the objects it calls. *)
Class Runtime : Type := {
  World : Type;
  Value : Type;
  Messages : Type;
  Payload : Type;
  LLM : Type;
  Chain : Type;
  TracerData : Type;
  (* isinstance(llm, BaseLLM), isinstance(llm, BaseChatModel) *)
  is_BaseLLM : LLM -> bool;
  is_BaseChatModel : LLM -> bool;
  (* {inputs} and {type(llm)} inside the f-strings *)
  repr_inputs : gmap string Value -> string;
  repr_type : LLM -> string;
  (* LangChainTracer(session_name=...) followed by ensure_session() *)
  tracer_setup : string -> World -> res TracerData * World;
  messages_from_dict : Value -> res Messages;
}.

Section Engine.
Context `{RT : Runtime}.

Abbreviation Inputs := (gmap string Value).

Record Example : Type := mkExample {
  id : UUID;
  inputs : Inputs;
  outputs : option Inputs;
}.

(** [LangChainTracer]: the fields the module reads or writes, and the rest
    of the object. *)
Record Tracer : Type := mkTracer {
  session_name : string;
  example_id : option UUID;
  tracer_data : TracerData;
}.

(** The argument of [generate] / [agenerate]: [[llm_prompt]] or
    [[messages]]. *)
Inductive GenArg : Type :=
| PromptArg (llm_prompt : Value)
| MessagesArg (messages : Messages).

(** One slot of the output list: the target's output, or the dictionary
    [{"Error": str(e)}]. *)
Inductive Slot : Type :=
| Output (p : Payload)
| ErrorDict (msg : string).

(** A call into a callee that receives the tracer as a callback: it sees the
    tracer and the world, and may change both. *)
Definition Callee : Type := Tracer -> World -> res Payload * Tracer * World.

(** The objects under evaluation.  [generate] and [run] are selected by
    [Mode]: [llm.generate] / [llm.agenerate], [chain.run] / [chain.arun]. *)
Record Behaviour : Type := mkBehaviour {
  llm_generate : Mode -> LLM -> GenArg -> Callee;
  chain_run : Mode -> Chain -> Inputs -> Callee;
}.

(** [MODEL_OR_CHAIN_FACTORY = Union[Callable[[], Chain], BaseLanguageModel]] *)
Inductive Target : Type :=
| DirectModel (llm : LLM)
| ChainFactory (factory : World -> res Chain * World).

(** Instrumentation: the calls that leave the module, in program order. *)
Inductive Event : Type :=
| EvTracerSetup (session : string)
| EvFactory (r : res Chain)
| EvChainRun (m : Mode) (c : Chain) (i : Inputs) (tag : option UUID)
| EvGenerate (m : Mode) (llm : LLM) (a : GenArg) (tag : option UUID)
| EvWarning (msg : string)
| EvPrint (line : string).

(** The store: tracer objects by handle, the outside world, the event log,
    and the two objects shared by the units of a concurrent run (the
    [results] dictionary of [arun_on_dataset] and
    [job_state["num_processed"]]). *)
Record St : Type := mkSt {
  heap : list Tracer;
  world : World;
  events : list Event;
  results : gmap string (list Slot);
  num_processed : Z;
}.

Definition set_heap (f : list Tracer -> list Tracer) (s : St) : St :=
  mkSt (f (heap s)) (world s) (events s) (results s) (num_processed s).
Definition set_world (w : World) (s : St) : St :=
  mkSt (heap s) w (events s) (results s) (num_processed s).
Definition log (e : Event) (s : St) : St :=
  mkSt (heap s) (world s) (events s ++ [e]) (results s) (num_processed s).
Definition set_results (f : gmap string (list Slot) -> gmap string (list Slot))
    (s : St) : St :=
  mkSt (heap s) (world s) (events s) (f (results s)) (num_processed s).
Definition set_num_processed (n : Z) (s : St) : St :=
  mkSt (heap s) (world s) (events s) (results s) n.

(** ** The monad of the module: state and exceptions *)

Definition M (A : Type) : Type := St -> res A * St.

Definition ret {A} (a : A) : M A := fun s => (Ret a, s).
Definition raise {A} (e : exn) : M A := fun s => (Raise e, s).
Definition bind {A B} (m : M A) (k : A -> M B) : M B := fun s =>
  match m s with
  | (Ret a, s') => k a s'
  | (Raise e, s') => (Raise e, s')
  end.
Definition lift {A} (r : res A) : M A := fun s => (r, s).
Definition modify (f : St -> St) : M unit := fun s => (Ret tt, f s).
Definition gets {A} (f : St -> A) : M A := fun s => (Ret (f s), s).

(** [try: body except Exception as e: handler e] *)
Definition try_except {A} (body : M A) (handler : exn -> M A) : M A := fun s =>
  match body s with
  | (Ret a, s') => (Ret a, s')
  | (Raise e, s') => if is_Exception e then handler e s' else (Raise e, s')
  end.

Notation "'let*' x := m 'in' k" := (bind m (fun x => k))
  (at level 10, x name, m at level 100, k at level 200).
Notation "m >> k" := (bind m (fun _ => k))
  (at level 100, k at level 200, right associativity).

(** ** Tracer objects *)

(** Attribute access through a reference.  A handle obtained from
    [new_tracer] is always inside the heap. *)
Definition deref (h : Handle) (s : St) : option Tracer := heap s !! h.

Definition get_example_id (h : Handle) : M (option UUID) :=
  gets (fun s => match deref h s with Some t => example_id t | None => None end).

Definition with_example_id (v : option UUID) (t : Tracer) : Tracer :=
  mkTracer (session_name t) v (tracer_data t).

Definition set_example_id (h : Handle) (v : option UUID) : M unit :=
  modify (set_heap (fun hp =>
    match hp !! h with
    | Some t => <[h := with_example_id v t]> hp
    | None => hp
    end)).

(** [LangChainTracer(session_name=session_name)] then [ensure_session()];
    the new object gets the next free handle. *)
Definition new_tracer (session : string) : M Handle := fun s =>
  let s1 := log (EvTracerSetup session) s in
  match tracer_setup session (world s1) with
  | (Ret d, w) =>
      (Ret (length (heap s1)),
       set_heap (fun hp => hp ++ [mkTracer session None d]) (set_world w s1))
  | (Raise e, w) => (Raise e, set_world w s1)
  end.

(** A call that passes [callbacks=[langchain_tracer]]: the callee works on
    the object behind the handle.  The event records the tag the tracer
    carries when the call is made.  The [None] branch only makes the
    function total: a handle returned by [new_tracer] is inside the heap,
    and nothing ever shrinks the heap. *)
Definition call_with_tracer (ev : option UUID -> Event) (c : Callee)
    (h : Handle) : M Payload := fun s =>
  match heap s !! h with
  | Some t =>
      let s1 := log (ev (example_id t)) s in
      match c t (world s1) with
      | (r, t', w) => (r, set_heap (fun hp => <[h := t']> hp) (set_world w s1))
      end
  | None => (Raise (mkExn (ExceptionSubclass "ReferenceError") ""), s)
  end.

Variable B : Behaviour.

Definition generate (m : Mode) (llm : LLM) (a : GenArg) (h : Handle) : M Payload :=
  call_with_tracer (EvGenerate m llm a) (llm_generate B m llm a) h.

Definition run_chain (m : Mode) (c : Chain) (i : Inputs) (h : Handle) : M Payload :=
  call_with_tracer (EvChainRun m c i) (chain_run B m c i) h.

(** [llm_or_chain_factory()] *)
Definition call_factory (factory : World -> res Chain * World) : M Chain := fun s =>
  match factory (world s) with
  | (r, w) => (r, log (EvFactory r) (set_world w s))
  end.

(** ** [run_llm] and [_arun_llm] *)

Definition run_llm (llm : LLM) (inputs : Inputs) (langchain_tracer : Handle)
    : M Payload :=
  if is_BaseLLM llm then
    match inputs !! "prompt" with
    | None =>
        raise (mkExn ValueError
          ("LLM Run must contain 'prompt' key. Got " +:+ repr_inputs inputs))
    | Some llm_prompt =>
        generate Sync llm (PromptArg llm_prompt) langchain_tracer
    end
  else if is_BaseChatModel llm then
    match inputs !! "messages" with
    | None =>
        raise (mkExn ValueError
          ("Chat Model Run must contain 'messages' key. Got "
             +:+ repr_inputs inputs))
    | Some raw_messages =>
        let* messages := lift (messages_from_dict raw_messages) in
        generate Sync llm (MessagesArg messages) langchain_tracer
    end
  else
    raise (mkExn ValueError ("Unsupported LLM type " +:+ repr_type llm)).

Definition _arun_llm (llm : LLM) (inputs : Inputs) (langchain_tracer : Handle)
    : M Payload :=
  if is_BaseLLM llm then
    match inputs !! "prompt" with
    | None =>
        raise (mkExn ValueError
          ("LLM Run requires 'prompt' input. Got " +:+ repr_inputs inputs))
    | Some llm_prompt =>
        generate Async llm (PromptArg llm_prompt) langchain_tracer
    end
  else if is_BaseChatModel llm then
    match inputs !! "messages" with
    | None =>
        raise (mkExn ValueError
          ("Chat Run requires 'messages' input. Got " +:+ repr_inputs inputs))
    | Some raw_messages =>
        let* messages := lift (messages_from_dict raw_messages) in
        generate Async llm (MessagesArg messages) langchain_tracer
    end
  else
    raise (mkExn ValueError ("Unsupported LLM type " +:+ repr_type llm)).

(** ** [run_llm_or_chain] and [_arun_llm_or_chain]

    The two functions are the same text up to the calls [run_llm] /
    [_arun_llm] and [chain.run] / [chain.arun]; [Mode] selects them. *)

(** The statements under [try], up to [outputs.append(output)]. *)
Definition invoke_target (m : Mode) (example : Example) (langchain_tracer : Handle)
    (llm_or_chain_factory : Target) : M Payload :=
  match llm_or_chain_factory with
  | DirectModel llm =>
      match m with
      | Sync => run_llm llm (inputs example) langchain_tracer
      | Async => _arun_llm llm (inputs example) langchain_tracer
      end
  | ChainFactory factory =>
      let* chain := call_factory factory in
      run_chain m chain (inputs example) langchain_tracer
  end.

Definition warning_text (example : Example) (e : exn) : string :=
  "Chain failed for example " +:+ id example +:+ ". Error: " +:+ exn_str e.

(** One pass through the body of [for _ in range(n_repetitions)]. *)
Definition repetition (m : Mode) (example : Example) (langchain_tracer : Handle)
    (llm_or_chain_factory : Target) (outputs : list Slot) : M (list Slot) :=
  try_except
    (let* output := invoke_target m example langchain_tracer llm_or_chain_factory in
     ret (outputs ++ [Output output]))
    (fun e =>
       modify (log (EvWarning (warning_text example e))) >>
       ret (outputs ++ [ErrorDict (exn_str e)])).

Fixpoint for_range {A} (n : nat) (body : A -> M A) (acc : A) : M A :=
  match n with
  | O => ret acc
  | S k => let* acc' := body acc in for_range k body acc'
  end.

Definition llm_or_chain (m : Mode) (example : Example) (langchain_tracer : Handle)
    (llm_or_chain_factory : Target) (n_repetitions : Z) : M (list Slot) :=
  let* previous_example_id := get_example_id langchain_tracer in
  set_example_id langchain_tracer (Some (id example)) >>
  let* outputs :=
    for_range (Z.to_nat n_repetitions)
      (repetition m example langchain_tracer llm_or_chain_factory) [] in
  set_example_id langchain_tracer previous_example_id >>
  ret outputs.

Definition run_llm_or_chain := llm_or_chain Sync.
Definition _arun_llm_or_chain := llm_or_chain Async.

(** ** Sequential mode: [run_on_dataset]

    [session_name] is the value [_get_session_name] produced and [examples]
    the list [list_examples] returned; the HTTP calls before them are not
    part of the engine. *)

Definition print (line : string) : M unit := modify (log (EvPrint line)).

(** [for i, example in enumerate(examples)] *)
Fixpoint for_enumerate {X A} (i : nat) (xs : list X) (body : nat -> X -> A -> M A)
    (acc : A) : M A :=
  match xs with
  | [] => ret acc
  | x :: xs' => let* acc' := body i x acc in for_enumerate (S i) xs' body acc'
  end.

(** The function's local names [example] and [result]: unbound until the
    loop body assigns them, and still visible after the loop. *)
Definition Locals : Type := option Example * option (list Slot).

Definition unbound_local (name : string) : exn :=
  mkExn UnboundLocalError
    ("local variable '" +:+ name +:+ "' referenced before assignment").

(** The body of the loop; it rebinds [example] and [result]. *)
Definition run_on_dataset_body (tracer : Handle) (llm_or_chain_factory : Target)
    (num_repetitions : Z) (verbose : bool)
    (i : nat) (example : Example) (_ : Locals) : M Locals :=
  let* result :=
    run_llm_or_chain example tracer llm_or_chain_factory num_repetitions in
  (if verbose then print (pretty (i + 1) +:+ " processed") else ret tt) >>
  ret (Some example, Some result).

Definition run_on_dataset (session_name : string) (examples : list Example)
    (llm_or_chain_factory : Target) (num_repetitions : Z) (verbose : bool)
    : M (gmap string (list Slot)) :=
  let results : gmap string (list Slot) := ∅ in
  let* tracer := new_tracer session_name in
  let* locals :=
    for_enumerate 0 examples
      (run_on_dataset_body tracer llm_or_chain_factory num_repetitions verbose)
      (None, None) in
  (* after the loop: results[str(example.id)] = result *)
  match locals with
  | (_, None) => raise (unbound_local "result")
  | (None, Some _) => raise (unbound_local "example")
  | (Some example, Some result) => ret (<[id example := result]> results)
  end.

(** ** Concurrent mode: [_gather_with_concurrency] and [arun_on_dataset] *)

(** [asyncio.Semaphore(n)]: the constructor rejects a negative value. *)
Definition Semaphore (n : Z) : M nat :=
  if (n <? 0)%Z then
    raise (mkExn ValueError "Semaphore initial value must be >= 0")
  else ret (Z.to_nat n).

(** [for _ in range(n): tracer_queue.put_nowait(await initializer())] *)
Definition fill_queue (n : Z) (initializer : M Handle) : M (list Handle) :=
  for_range (Z.to_nat n)
    (fun tracer_queue => let* t := initializer in ret (tracer_queue ++ [t])) [].

(** The statements of [_gather_with_concurrency] before [asyncio.gather]. *)
Definition gather_setup (n : Z) (initializer : M Handle) : M (nat * list Handle) :=
  let* semaphore := Semaphore n in
  modify (set_num_processed 0) >>
  let* tracer_queue := fill_queue n initializer in
  ret (semaphore, tracer_queue).

(** Where a [run_coroutine_with_semaphore] coroutine stands. *)
Inductive Pc : Type :=
| Pending                      (* before [async with semaphore] *)
| Entered                     (* inside it, before [tracer_queue.get()] *)
| Holding (tracer : Handle)    (* inside [try] *)
| Releasing (r : res unit)     (* after [finally], before the semaphore exit *)
| Finished (r : res unit).

Record Sched : Type := mkSched {
  semaphore : nat;               (* free permits *)
  tracer_queue : list Handle;    (* FIFO *)
  tasks : list Pc;
  first_error : option exn;      (* what [asyncio.gather] re-raises *)
  store : St;
}.

Section Gather.
Variable async_funcs : list (Handle -> M unit).

(** One scheduling step of the event loop.  [async_func(tracer, job_state)]
    runs between two scheduler steps: what it does at its own suspension
    points is inside the callee, and it touches neither the semaphore nor
    the queue. *)
Inductive step : Sched -> Sched -> Prop :=
| step_acquire i p q ts fe s :
    ts !! i = Some Pending ->
    step (mkSched (S p) q ts fe s) (mkSched p q (<[i := Entered]> ts) fe s)
| step_get i p h q ts fe s :
    ts !! i = Some Entered ->
    step (mkSched p (h :: q) ts fe s) (mkSched p q (<[i := Holding h]> ts) fe s)
| step_run i p q ts fe s h f r s' :
    ts !! i = Some (Holding h) ->
    async_funcs !! i = Some f ->
    f h s = (r, s') ->
    (* finally: tracer_queue.put_nowait(tracer) *)
    step (mkSched p q ts fe s) (mkSched p (q ++ [h]) (<[i := Releasing r]> ts) fe s')
| step_release i p q ts fe s r :
    ts !! i = Some (Releasing r) ->
    step (mkSched p q ts fe s)
         (mkSched (S p) q (<[i := Finished r]> ts)
            (match fe, r with
             | None, Raise e => Some e
             | _, _ => fe
             end) s).

Inductive steps : Sched -> Sched -> Prop :=
| steps_refl sc : steps sc sc
| steps_step sc1 sc2 sc3 : steps sc1 sc2 -> step sc2 sc3 -> steps sc1 sc3.

Definition start (permits : nat) (queue : list Handle) (s : St) : Sched :=
  mkSched permits queue (replicate (length async_funcs) Pending) None s.

Definition finished_ok (pc : Pc) : bool :=
  match pc with Finished (Ret _) => true | _ => false end.

Definition is_finished (pc : Pc) : bool :=
  match pc with Finished _ => true | _ => false end.

(** How [await _gather_with_concurrency(n, initializer, *async_funcs)] can
    end: the set-up raises; or every coroutine returns; or [gather]
    re-raises the first exception of a coroutine. *)
Inductive gather_with_concurrency (n : Z) (initializer : M Handle) (s : St)
    : res unit -> St -> Prop :=
| gather_setup_raises e s' :
    gather_setup n initializer s = (Raise e, s') ->
    gather_with_concurrency n initializer s (Raise e) s'
| gather_returns p q s0 sc :
    gather_setup n initializer s = (Ret (p, q), s0) ->
    steps (start p q s0) sc ->
    forallb finished_ok (tasks sc) = true ->
    gather_with_concurrency n initializer s (Ret tt) (store sc)
| gather_reraises p q s0 sc e :
    gather_setup n initializer s = (Ret (p, q), s0) ->
    steps (start p q s0) sc ->
    first_error sc = Some e ->
    gather_with_concurrency n initializer s (Raise e) (store sc).

End Gather.

Definition process_example (llm_or_chain_factory : Target) (num_repetitions : Z)
    (verbose : bool) (example : Example) (tracer : Handle) : M unit :=
  let* result :=
    _arun_llm_or_chain example tracer llm_or_chain_factory num_repetitions in
  modify (set_results (fun results => <[id example := result]> results)) >>
  let* n := gets num_processed in
  modify (set_num_processed (n + 1)) >>
  if verbose then
    let* n' := gets num_processed in
    print ("Processed examples: " +:+ pretty n')
  else ret tt.

Definition arun_funcs (examples : list Example) (llm_or_chain_factory : Target)
    (num_repetitions : Z) (verbose : bool) : list (Handle -> M unit) :=
  map (process_example llm_or_chain_factory num_repetitions verbose) examples.

(** [arun_on_dataset]: [results = {}], then the gather, then
    [return results]. *)
Inductive arun_on_dataset (session_name : string) (examples : list Example)
    (llm_or_chain_factory : Target) (concurrency_level num_repetitions : Z)
    (verbose : bool) (s : St) : res (gmap string (list Slot)) -> St -> Prop :=
| arun_returns s' :
    gather_with_concurrency
      (arun_funcs examples llm_or_chain_factory num_repetitions verbose)
      concurrency_level (new_tracer session_name)
      (set_results (fun _ => ∅) s) (Ret tt) s' ->
    arun_on_dataset session_name examples llm_or_chain_factory
      concurrency_level num_repetitions verbose s (Ret (results s')) s'
| arun_raises e s' :
    gather_with_concurrency
      (arun_funcs examples llm_or_chain_factory num_repetitions verbose)
      concurrency_level (new_tracer session_name)
      (set_results (fun _ => ∅) s) (Raise e) s' ->
    arun_on_dataset session_name examples llm_or_chain_factory
      concurrency_level num_repetitions verbose s (Raise e) s'.

(** ** Vocabulary of the statements *)

(** The slot a repetition appends for the outcome of its invocation. *)
Definition slot_of (r : res Payload) : Slot :=
  match r with
  | Ret p => Output p
  | Raise e => ErrorDict (exn_str e)
  end.

(** The successive invocations of the target made by [k] repetitions that
    all reach their [outputs.append], with the warning logged after each
    failed one. *)
Fixpoint invocations (m : Mode) (example : Example) (h : Handle) (target : Target)
    (k : nat) (s : St) : list (res Payload) * St :=
  match k with
  | O => ([], s)
  | S k' =>
      let '(r, s1) := invoke_target m example h target s in
      let s2 :=
        match r with
        | Ret _ => s1
        | Raise e => log (EvWarning (warning_text example e)) s1
        end in
      let '(rs, s3) := invocations m example h target k' s2 in
      (r :: rs, s3)
  end.

(** The callees raise nothing outside [Exception]. *)
Definition callee_raises_Exception (c : Callee) : Prop :=
  forall t w e t' w', c t w = (Raise e, t', w') -> is_Exception e = true.

Definition raises_only_Exception (target : Target) : Prop :=
  (forall m llm a, callee_raises_Exception (llm_generate B m llm a)) /\
  (forall m c i, callee_raises_Exception (chain_run B m c i)) /\
  (forall v e, messages_from_dict v = Raise e -> is_Exception e = true) /\
  match target with
  | DirectModel _ => True
  | ChainFactory factory =>
      forall w e w', factory w = (Raise e, w') -> is_Exception e = true
  end.

(** What one repetition on a factory target adds to the event log. *)
Inductive factory_block (m : Mode) (example : Example) : list Event -> Prop :=
| block_ran c tag :
    factory_block m example
      [EvFactory (Ret c); EvChainRun m c (inputs example) tag]
| block_run_failed c tag e :
    factory_block m example
      [EvFactory (Ret c); EvChainRun m c (inputs example) tag;
       EvWarning (warning_text example e)]
| block_factory_failed e :
    factory_block m example
      [EvFactory (Raise e); EvWarning (warning_text example e)].

Definition is_generate (e : Event) : bool :=
  match e with EvGenerate _ _ _ _ => true | _ => false end.

(** Counting coroutines by where they stand. *)
Definition is_holding (pc : Pc) : bool :=
  match pc with Holding _ => true | _ => false end.

Definition in_gate (pc : Pc) : bool :=
  match pc with Entered | Holding _ | Releasing _ => true | _ => false end.

Definition count_pc (f : Pc -> bool) (ts : list Pc) : nat :=
  length (List.filter f ts).

(** The tracers currently checked out. *)
Definition handle_of (pc : Pc) : list Handle :=
  match pc with Holding h => [h] | _ => [] end.

Definition held (ts : list Pc) : list Handle := flat_map handle_of ts.

(** Scheduler steps a coroutine still has to take. *)
Definition steps_left (pc : Pc) : nat :=
  match pc with
  | Pending => 4
  | Entered => 3
  | Holding _ => 2
  | Releasing _ => 1
  | Finished _ => 0
  end.

Definition work_left (sc : Sched) : nat :=
  list_sum (map steps_left (tasks sc)).

(** What every scheduler state of a run over [nfuncs] coroutines satisfies,
    for [n] permits and the tracers [pool] built by the set-up. *)
Definition gather_inv (nfuncs n : nat) (pool : list Handle) (sc : Sched) : Prop :=
  semaphore sc + count_pc in_gate (tasks sc) = n /\
  tracer_queue sc ++ held (tasks sc) ≡ₚ pool /\
  length (tasks sc) = nfuncs.

(** A relation between the store before and after a computation, whatever
    its outcome. *)
Definition frames (I : St -> St -> Prop) {A} (c : M A) : Prop :=
  forall s r s', c s = (r, s') -> I s s'.

End Engine.

(** ** More vocabulary: what a call leaves alone, and what the log counts *)

Section Vocabulary.
Context `{RT : Runtime}.

Definition is_factory_call (e : Event) : bool :=
  match e with EvFactory _ => true | _ => false end.

Definition is_tracer_setup (e : Event) : bool :=
  match e with EvTracerSetup _ => true | _ => false end.

Definition count_events (f : Event -> bool) (l : list Event) : nat :=
  length (List.filter f l).

(** The tag under which a call into a model or a chain was made. *)
Definition call_tag (e : Event) : option (option UUID) :=
  match e with
  | EvChainRun _ _ _ tag => Some tag
  | EvGenerate _ _ _ tag => Some tag
  | _ => None
  end.

(** The callees read the tracer's tag and leave it as it is. *)
Definition callee_keeps_tag (c : Callee) : Prop :=
  forall t w r t' w', c t w = (r, t', w') -> example_id t' = example_id t.

Definition callees_keep_tag (B : Behaviour) : Prop :=
  (forall m llm a, callee_keeps_tag (llm_generate B m llm a)) /\
  (forall m c i, callee_keeps_tag (chain_run B m c i)).

(** A coroutine whose [async_func] returned. *)
Definition returned (pc : Pc) : bool :=
  match pc with
  | Releasing (Ret _) => true
  | Finished (Ret _) => true
  | _ => false
  end.

(** Between [s] and [s'] no tracer other than [h] changed, no tracer was
    created, and the result map and the counter are the same. *)
Definition only_tracer_touched (h : Handle) (s s' : St) : Prop :=
  length (heap s') = length (heap s) /\
  (forall h', h' <> h -> heap s' !! h' = heap s !! h') /\
  results s' = results s /\
  num_processed s' = num_processed s.

End Vocabulary.

(** ** [_get_session_name] *)

Section SessionName.
Context `{RT : Runtime}.

(* llm.__class__.__name__ and chain.__class__.__name__ *)
Variable class_name_of_llm : LLM -> string.
Variable class_name_of_chain : Chain -> string.
(* datetime.now().strftime("%Y-%m-%d-%H-%M-%S") *)
Variable strftime_now : World -> string.

Definition _get_session_name (session_name : option string)
    (llm_or_chain_factory : Target) (dataset_name : string) : M string :=
  match session_name with
  | Some session_name => ret session_name
  | None =>
      bind (gets (fun s => strftime_now (world s))) (fun current_time =>
      bind
        (match llm_or_chain_factory with
         | DirectModel llm => ret (class_name_of_llm llm)
         | ChainFactory factory =>
             bind (call_factory factory) (fun chain =>
             ret (class_name_of_chain chain))
         end) (fun model_name =>
      ret (dataset_name +:+ "-" +:+ model_name +:+ "-" +:+ current_time)))
  end.

End SessionName.

(** ** [run_on_dataset] from its first line *)

Section WholeCall.
Context `{RT : Runtime}.

Variable class_name_of_llm : LLM -> string.
Variable class_name_of_chain : Chain -> string.
Variable strftime_now : World -> string.
(* self.read_dataset(dataset_name=...), giving str(dataset.id), and
   self.list_examples(dataset_id=...): methods of the client that talk to
   the service; they are handed neither the target nor a tracer. *)
Variable read_dataset : string -> World -> res string * World.
Variable list_examples : string -> World -> res (list Example) * World.

(** A call that reaches the outside world and nothing of the engine. *)
Definition outside {A} (call : World -> res A * World) : M A := fun s =>
  match call (world s) with
  | (r, w) => (r, set_world w s)
  end.

(** Lines 635-653: the session name, the dataset and its examples, then
    the loop modelled by [run_on_dataset]. *)
Definition run_on_dataset_call (B : Behaviour) (dataset_name : string)
    (llm_or_chain_factory : Target) (num_repetitions : Z)
    (session_name : option string) (verbose : bool)
    : M (gmap string (list Slot)) :=
  bind (_get_session_name class_name_of_llm class_name_of_chain strftime_now
          session_name llm_or_chain_factory dataset_name) (fun session_name =>
  bind (outside (read_dataset dataset_name)) (fun dataset_id =>
  bind (outside (list_examples dataset_id)) (fun examples =>
  run_on_dataset B session_name examples llm_or_chain_factory num_repetitions
    verbose))).

End WholeCall.

(** ** Building the client: [_is_localhost], [_get_seeded_tenant_id] and
    [validate_api_key_if_hosted] *)

(** [s.split(sep)] for a one-character separator: the pieces between the
    occurrences of [sep], never an empty list. *)
Fixpoint split_on (sep : Ascii.ascii) (s : string) : list string :=
  match s with
  | EmptyString => [EmptyString]
  | String c rest =>
      if Ascii.eqb c sep then EmptyString :: split_on sep rest
      else
        match split_on sep rest with
        | piece :: pieces => String c piece :: pieces
        | [] => [String c EmptyString]
        end
  end.

(** What the client needs from the network and from the libraries it
    calls. *)
Class Network : Type := {
  Remote : Type;
  Response : Type;
  (* requests.get(url, headers=headers) *)
  requests_get : string -> gmap string string -> Remote -> res Response * Remote;
  (* raise_for_status_with_text(response), of langchain.utils *)
  raise_for_status_with_text : Response -> res unit;
  (* response.json(), read at the annotated type List[dict] *)
  response_json : Response -> res (list (gmap string string));
  (* urlsplit(url).netloc *)
  urlsplit_netloc : string -> res string;
  (* socket.gethostbyname(host) *)
  gethostbyname : string -> res string;
  (* the text of the last attempt inside a RetryError *)
  repr_last_attempt : exn -> string;
}.

Section Client.
Context `{NW : Network}.

(** The service behind the network, and the GET requests sent so far, each
    with its URL and headers. *)
Record Net : Type := mkNet {
  remote : Remote;
  sent : list (string * gmap string string);
}.

(** [except socket.gaierror] *)
Definition is_gaierror (e : exn) : bool :=
  match exn_cls e with
  | ExceptionSubclass name => String.eqb name "gaierror"
  | _ => false
  end.

Definition is_local_ip (ip : string) : bool :=
  String.eqb ip "127.0.0.1" || String.prefix "0.0.0.0" ip || String.prefix "::" ip.

Definition _is_localhost (url : string) : res bool :=
  match urlsplit_netloc url with
  | Raise e => if is_gaierror e then Ret false else Raise e
  | Ret full_netloc =>
      let netloc := hd EmptyString (split_on ":"%char full_netloc) in
      match gethostbyname netloc with
      | Ret ip => Ret (is_local_ip ip)
      | Raise e => if is_gaierror e then Ret false else Raise e
      end
  end.

(** Truth value of an [Optional[str]]: [None] and the empty string are
    false. *)
Definition truthy (v : option string) : bool :=
  match v with
  | Some text => negb (String.eqb text "")
  | None => false
  end.

Definition tenant_headers (api_key : option string) : gmap string string :=
  match api_key with
  | Some key => if truthy api_key then {[ "x-api-key" := key ]} else ∅
  | None => ∅
  end.

(** The body of [_get_seeded_tenant_id]: one attempt. *)
Definition get_seeded_tenant_id_attempt (api_url : string)
    (api_key : option string) (n : Net) : res string * Net :=
  let url := api_url +:+ "/tenants" in
  let headers := tenant_headers api_key in
  let log := sent n ++ [(url, headers)] in
  match requests_get url headers (remote n) with
  | (Raise e, rm) => (Raise e, mkNet rm log)
  | (Ret response, rm) =>
      let n' := mkNet rm log in
      match raise_for_status_with_text response with
      | Raise e =>
          if is_Exception e then
            (Raise (mkExn ValueError
                      "Unable to get default tenant ID. Please manually provide."),
             n')
          else (Raise e, n')
      | Ret _ =>
          match response_json response with
          | Raise e => (Raise e, n')
          | Ret [] => (Raise (mkExn ValueError "No seeded tenant found"), n')
          | Ret (first :: _) =>
              match first !! "id" with
              | Some tenant => (Ret tenant, n')
              | None => (Raise (mkExn (ExceptionSubclass "KeyError") "'id'"), n')
              end
          end
      end
  end.

Definition RetryError (last : exn) : exn :=
  mkExn (ExceptionSubclass "RetryError")
    ("RetryError[" +:+ repr_last_attempt last +:+ "]").

(** tenacity's [retry] with its defaults: an attempt that raises an
    [Exception] is made again while the stop condition allows [more]
    attempts, and a [RetryError] is raised when it allows none; any other
    exception is let through.  The pause of [wait_fixed] is not part of
    the model. *)
Fixpoint retry {A} (more : nat) (attempt : Net -> res A * Net) (n : Net)
    : res A * Net :=
  match attempt n with
  | (Ret a, n') => (Ret a, n')
  | (Raise e, n') =>
      if is_Exception e then
        match more with
        | O => (Raise (RetryError e), n')
        | S more' => retry more' attempt n'
        end
      else (Raise e, n')
  end.

(** [@retry(stop=stop_after_attempt(3), wait=wait_fixed(0.5))] *)
Definition _get_seeded_tenant_id (api_url : string) (api_key : option string)
    : Net -> res string * Net :=
  retry 2 (get_seeded_tenant_id_attempt api_url api_key).

(** The three settings the validator reads.  For [api_url] the record tells
    a key that is absent ([None]) from a key that holds [None]
    ([Some None]): [values.get("api_url", default)] returns the default in
    the first case and [None] in the second.  For the two other keys
    [values.get] returns [None] in both cases. *)
Record Values : Type := mkValues {
  api_url : option (option string);
  api_key : option string;
  tenant_id : option string;
}.

(** [values.get("api_url", "http://localhost:8000")] *)
Definition get_api_url (values : Values) : option string :=
  match api_url values with
  | None => Some "http://localhost:8000"
  | Some held => held
  end.

(** [_is_localhost(None)]: [urlsplit(None).netloc] is a bytes object, and
    its [split(":")] raises [TypeError], which [except socket.gaierror]
    does not catch. *)
Definition is_localhost_of_None : exn :=
  mkExn (ExceptionSubclass "TypeError")
    "a bytes-like object is required, not 'str'".

Definition validate_api_key_if_hosted (values : Values) (n : Net)
    : res Values * Net :=
  match get_api_url values with
  | None => (Raise is_localhost_of_None, n)
  | Some url =>
      match _is_localhost url with
      | Raise e => (Raise e, n)
      | Ret is_local =>
          if negb is_local && negb (truthy (api_key values)) then
            (Raise (mkExn ValueError
                      "API key must be provided when using hosted LangChain+ API"),
             n)
          else if truthy (tenant_id values) then (Ret values, n)
          else
            match _get_seeded_tenant_id url (api_key values) n with
            | (Ret tenant, n') =>
                (Ret (mkValues (api_url values) (api_key values) (Some tenant)),
                 n')
            | (Raise e, n') => (Raise e, n')
            end
      end
  end.

End Client.

(** ** A small concrete runtime

    Text values, a world that counts the calls made into it, chains named by
    the value of that counter when the factory built them. *)

Inductive DemoLLM : Type := TextLLM | ChatLLM | PlainLM.

#[export] Instance demo_runtime : Runtime := {|
  World := nat;
  Value := string;
  Messages := list string;
  Payload := string;
  LLM := DemoLLM;
  Chain := nat;
  TracerData := unit;
  is_BaseLLM := fun l => match l with TextLLM => true | _ => false end;
  is_BaseChatModel := fun l => match l with ChatLLM => true | _ => false end;
  repr_inputs := fun _ => "{...}";
  repr_type := fun l =>
    match l with
    | TextLLM => "<class 'TextLLM'>"
    | ChatLLM => "<class 'ChatLLM'>"
    | PlainLM => "<class 'PlainLM'>"
    end;
  tracer_setup := fun session w =>
    if String.eqb session "unreachable"
    then (Raise (mkExn (ExceptionSubclass "ConnectionError") "no session"), w)
    else (Ret tt, w);
  messages_from_dict := fun v =>
    if String.eqb v "malformed"
    then Raise (mkExn (ExceptionSubclass "KeyError") "'type'")
    else Ret [v];
|}.

(** Every call succeeds with ["ok"]. *)
Definition demo_ok : Behaviour :=
  mkBehaviour
    (fun _ _ _ t w => (Ret "ok", t, S w))
    (fun _ _ _ t w => (Ret "ok", t, S w)).

(** Every call fails with the error text ["boom"]. *)
Definition demo_boom : Behaviour :=
  mkBehaviour
    (fun _ _ _ t w => (Raise (mkExn (ExceptionSubclass "RuntimeError") "boom"), t, S w))
    (fun _ _ _ t w => (Raise (mkExn (ExceptionSubclass "RuntimeError") "boom"), t, S w)).

(** The user interrupts the first call. *)
Definition demo_interrupt : Behaviour :=
  mkBehaviour
    (fun _ _ _ t w => (Raise (mkExn (BaseExceptionOnly "KeyboardInterrupt") ""), t, S w))
    (fun _ _ _ t w => (Raise (mkExn (BaseExceptionOnly "KeyboardInterrupt") ""), t, S w)).

Definition demo_factory : Target := ChainFactory (fun w => (Ret w, S w)).

(** A factory that cannot build its chain. *)
Definition demo_failing_factory : Target :=
  ChainFactory
    (fun w => (Raise (mkExn (ExceptionSubclass "ConnectionError") "no session"), w)).

Definition demo_store : St := mkSt [] 0 [] ∅ 0.

(** A store with one tracer already tagged by an enclosing caller. *)
Definition demo_store_tagged : St :=
  mkSt [mkTracer "outer" (Some "enclosing") tt] 0 [] ∅ 0.

Definition example_A : Example := mkExample "A" {["prompt" := "hello"]} None.
Definition example_B : Example := mkExample "B" {["prompt" := "world"]} None.
Definition example_C : Example := mkExample "C" {["messages" := "hi"]} None.
Definition example_D : Example := mkExample "D" {["messages" := "malformed"]} None.

(** A concurrent run over [A, B] with one permit, stopped while the first
    coroutine holds the only tracer. *)
Definition demo_funcs : list (Handle -> M unit) :=
  arun_funcs demo_ok [example_A; example_B] demo_factory 1 false.

Definition demo_pool_store : St :=
  snd (gather_setup 1 (new_tracer "session") demo_store).

Definition demo_sched_holding : Sched :=
  mkSched 0 [] [Holding 0; Pending] None demo_pool_store.

(** The store after a tracer set-up that failed. *)
Definition demo_failed_store : St :=
  mkSt [] 0 [EvTracerSetup "unreachable"] ∅ 0.

Definition demo_connection_error : exn :=
  mkExn (ExceptionSubclass "ConnectionError") "no session".

(** The same run carried to its end: [B] is served first, then [A]. *)
Definition demo_store_after_B : St :=
  snd (process_example demo_ok demo_factory 1 false example_B 0 demo_pool_store).

Definition demo_done_store : St :=
  snd (process_example demo_ok demo_factory 1 false example_A 0 demo_store_after_B).

Definition demo_sched_done : Sched :=
  mkSched 1 [0] [Finished (Ret tt); Finished (Ret tt)] None demo_done_store.

(** A service that answers the third request: the first two responses
    carry an error status.  The only name that resolves is [localhost]. *)
#[export] Instance demo_network : Network := {|
  Remote := nat;
  Response := nat;
  requests_get := fun _ _ served => (Ret served, S served);
  raise_for_status_with_text := fun response =>
    if response <? 2
    then Raise (mkExn (ExceptionSubclass "HTTPError") "503 Server Error")
    else Ret tt;
  response_json := fun _ => Ret [ {[ "id" := "tenant-1" ]} ];
  urlsplit_netloc := fun url =>
    if String.eqb url "http://localhost:8000" then Ret "localhost:8000"
    else if String.eqb url "http://localhost" then Ret "localhost"
    else Ret "api.example.com";
  gethostbyname := fun host =>
    if String.eqb host "localhost" then Ret "127.0.0.1"
    else Raise (mkExn (ExceptionSubclass "gaierror") "Name or service not known");
  repr_last_attempt := exn_str;
|}.

(** The service lists [A, B] for every dataset. *)
Definition demo_read_dataset : World -> res string * World :=
  fun w => (Ret "dataset-1", w).

Definition demo_list_examples : string -> World -> res (list Example) * World :=
  fun _ w => (Ret [example_A; example_B], w).

Definition demo_last_entry : gmap string (list Slot) :=
  {[ "B" := [Output "ok"; Output "ok"; Output "ok"] ]}.

Definition demo_store_after_call : St :=
  snd (run_on_dataset_call (fun _ => "LLM") (fun _ => "Chain")
         (fun _ => "2023-05-01-12-00-00") (fun _ => demo_read_dataset)
         demo_list_examples demo_ok "qa" demo_factory 3 None true demo_store).

Definition demo_net : Net := mkNet 0 [].

Definition demo_tenant_request : string * gmap string string :=
  ("http://localhost:8000/tenants", ∅).

Definition demo_net_answered : Net := mkNet 3 (replicate 3 demo_tenant_request).

(** * Properties *)

Section Facts.
Context `{RT : Runtime} (B : Behaviour).

(** ** The monad *)

Lemma bind_ret_inv {A C} (c : M A) (k : A -> M C) s v s' :
  bind c k s = (Ret v, s') ->
  exists a s1, c s = (Ret a, s1) /\ k a s1 = (Ret v, s').
Proof.
  unfold bind. destruct (c s) as [[a|e] s1]; intros H; [eauto | discriminate].
Qed.

Section Frames.
Variable I : St -> St -> Prop.
Hypothesis I_refl : forall s, I s s.
Hypothesis I_trans : forall s1 s2 s3, I s1 s2 -> I s2 s3 -> I s1 s3.

Lemma frames_ret {A} (a : A) : frames I (ret a).
Proof. intros s r s' [= <- <-]. apply I_refl. Qed.

Lemma frames_raise {A} e : frames I (@raise _ A e).
Proof. intros s r s' [= <- <-]. apply I_refl. Qed.

Lemma frames_lift {A} (x : res A) : frames I (lift x).
Proof. intros s r s' [= <- <-]. apply I_refl. Qed.

Lemma frames_gets {A} (f : St -> A) : frames I (gets f).
Proof. intros s r s' [= <- <-]. apply I_refl. Qed.

Lemma frames_modify f : (forall s, I s (f s)) -> frames I (modify f).
Proof. intros Hf s r s' [= <- <-]. apply Hf. Qed.

Lemma frames_bind {A C} (c : M A) (k : A -> M C) :
  frames I c -> (forall a, frames I (k a)) -> frames I (bind c k).
Proof.
  intros Hc Hk s r s'. unfold bind.
  destruct (c s) as [[a|e] s1] eqn:E.
  - intros H. eapply I_trans; [eapply Hc, E | eapply Hk, H].
  - intros [= <- <-]. eapply Hc, E.
Qed.

Lemma frames_try_except {A} (c : M A) (k : exn -> M A) :
  frames I c -> (forall e, frames I (k e)) -> frames I (try_except c k).
Proof.
  intros Hc Hk s r s'. unfold try_except.
  destruct (c s) as [[a|e] s1] eqn:E.
  - intros [= <- <-]. eapply Hc, E.
  - destruct (is_Exception e).
    + intros H. eapply I_trans; [eapply Hc, E | eapply Hk, H].
    + intros [= <- <-]. eapply Hc, E.
Qed.

Lemma frames_for_range {A} n (body : A -> M A) :
  (forall a, frames I (body a)) -> forall acc, frames I (for_range n body acc).
Proof.
  intros Hb. induction n as [|n IH]; intros acc; simpl.
  - apply frames_ret.
  - apply frames_bind; [apply Hb | intros a; apply IH].
Qed.

Hypothesis I_log : forall e s, I s (log e s).
Hypothesis I_world : forall w s, I s (set_world w s).
Hypothesis I_store : forall h t s, I s (set_heap (fun hp => <[h := t]> hp) s).

Lemma frames_set_example_id h v : frames I (set_example_id h v).
Proof.
  apply frames_modify. intros s. unfold set_heap.
  destruct (heap s !! h) as [t|] eqn:E.
  - apply (I_store h (with_example_id v t) s).
  - destruct s; apply I_refl.
Qed.

Lemma frames_call_with_tracer ev c h : frames I (call_with_tracer ev c h).
Proof.
  intros s r s'. unfold call_with_tracer.
  destruct (heap s !! h) as [t|].
  - destruct (c t (world (log (ev (example_id t)) s))) as [[r0 t'] w].
    intros [= <- <-].
    eapply I_trans; [apply I_log|]. eapply I_trans; [apply I_world|]. apply I_store.
  - intros [= <- <-]. apply I_refl.
Qed.

Lemma frames_call_factory f : frames I (call_factory f).
Proof.
  intros s r s'. unfold call_factory.
  destruct (f (world s)) as [r0 w]. intros [= <- <-].
  eapply I_trans; [apply I_world | apply I_log].
Qed.

Lemma frames_run_llm llm i h : frames I (run_llm B llm i h).
Proof.
  unfold run_llm.
  destruct (is_BaseLLM llm); [|destruct (is_BaseChatModel llm)].
  - destruct (i !! "prompt"); [apply frames_call_with_tracer | apply frames_raise].
  - destruct (i !! "messages"); [|apply frames_raise].
    apply frames_bind; [apply frames_lift | intros; apply frames_call_with_tracer].
  - apply frames_raise.
Qed.

Lemma frames_arun_llm llm i h : frames I (_arun_llm B llm i h).
Proof.
  unfold _arun_llm.
  destruct (is_BaseLLM llm); [|destruct (is_BaseChatModel llm)].
  - destruct (i !! "prompt"); [apply frames_call_with_tracer | apply frames_raise].
  - destruct (i !! "messages"); [|apply frames_raise].
    apply frames_bind; [apply frames_lift | intros; apply frames_call_with_tracer].
  - apply frames_raise.
Qed.

Lemma frames_invoke_target m ex h target : frames I (invoke_target B m ex h target).
Proof.
  destruct target as [llm|f]; simpl.
  - destruct m; [apply frames_run_llm | apply frames_arun_llm].
  - apply frames_bind; [apply frames_call_factory | intros; apply frames_call_with_tracer].
Qed.

Lemma frames_repetition m ex h target outs :
  frames I (repetition B m ex h target outs).
Proof.
  apply frames_try_except.
  - apply frames_bind; [apply frames_invoke_target | intros; apply frames_ret].
  - intros e. apply frames_bind; [apply frames_modify; intros; apply I_log |].
    intros; apply frames_ret.
Qed.

Lemma frames_llm_or_chain m ex h target n :
  frames I (llm_or_chain B m ex h target n).
Proof.
  unfold llm_or_chain.
  apply frames_bind; [apply frames_gets | intros prev].
  apply frames_bind; [apply frames_set_example_id | intros _].
  apply frames_bind; [apply frames_for_range; intros; apply frames_repetition |].
  intros outs. apply frames_bind; [apply frames_set_example_id | intros; apply frames_ret].
Qed.

End Frames.

(** ** The repetition loop *)

Lemma call_with_tracer_Exception ev c h s e s' :
  callee_raises_Exception c ->
  call_with_tracer ev c h s = (Raise e, s') -> is_Exception e = true.
Proof.
  intros Hc. unfold call_with_tracer.
  destruct (heap s !! h) as [t|].
  - destruct (c t (world (log (ev (example_id t)) s))) as [[r t'] w] eqn:E.
    intros [= -> <-]. eapply Hc, E.
  - intros [= <- <-]. reflexivity.
Qed.

Lemma run_llm_Exception llm i h s e s' :
  raises_only_Exception B (DirectModel llm) ->
  run_llm B llm i h s = (Raise e, s') -> is_Exception e = true.
Proof.
  intros (Hg & _ & Hm & _). unfold run_llm.
  destruct (is_BaseLLM llm); [|destruct (is_BaseChatModel llm)].
  - destruct (i !! "prompt").
    + apply call_with_tracer_Exception, Hg.
    + intros [= <- <-]. reflexivity.
  - destruct (i !! "messages") as [raw|].
    + unfold bind, lift. destruct (messages_from_dict raw) as [ms|e0] eqn:E.
      * apply call_with_tracer_Exception, Hg.
      * intros [= <- <-]. eapply Hm, E.
    + intros [= <- <-]. reflexivity.
  - intros [= <- <-]. reflexivity.
Qed.

Lemma arun_llm_Exception llm i h s e s' :
  raises_only_Exception B (DirectModel llm) ->
  _arun_llm B llm i h s = (Raise e, s') -> is_Exception e = true.
Proof.
  intros (Hg & _ & Hm & _). unfold _arun_llm.
  destruct (is_BaseLLM llm); [|destruct (is_BaseChatModel llm)].
  - destruct (i !! "prompt").
    + apply call_with_tracer_Exception, Hg.
    + intros [= <- <-]. reflexivity.
  - destruct (i !! "messages") as [raw|].
    + unfold bind, lift. destruct (messages_from_dict raw) as [ms|e0] eqn:E.
      * apply call_with_tracer_Exception, Hg.
      * intros [= <- <-]. eapply Hm, E.
    + intros [= <- <-]. reflexivity.
  - intros [= <- <-]. reflexivity.
Qed.

Lemma invoke_target_Exception m ex h target s e s' :
  raises_only_Exception B target ->
  invoke_target B m ex h target s = (Raise e, s') -> is_Exception e = true.
Proof.
  intros Ht. destruct target as [llm|f]; simpl.
  - destruct m; [eapply run_llm_Exception | eapply arun_llm_Exception]; exact Ht.
  - destruct Ht as (_ & Hr & _ & Hf). unfold bind, call_factory.
    destruct (f (world s)) as [[c|e0] w] eqn:E.
    + apply call_with_tracer_Exception, Hr.
    + intros [= <- <-]. eapply Hf, E.
Qed.

(** When every failure is an [Exception], the loop is the plain sequence of
    invocations, each outcome turned into its slot. *)
Lemma loop_is_invocations m ex h target :
  raises_only_Exception B target ->
  forall k acc s,
    for_range k (repetition B m ex h target) acc s =
    (Ret (acc ++ map slot_of (fst (invocations B m ex h target k s))),
     snd (invocations B m ex h target k s)).
Proof.
  intros Ht. induction k as [|k IH]; intros acc s; simpl.
  - unfold ret. by rewrite app_nil_r.
  - unfold bind at 1. unfold repetition at 1. unfold try_except, bind at 1.
    destruct (invoke_target B m ex h target s) as [[p|e] s1] eqn:E.
    + unfold ret. rewrite IH.
      destruct (invocations B m ex h target k s1) as [rs s3]. simpl.
      by rewrite <- app_assoc.
    + rewrite (invoke_target_Exception _ _ _ _ _ _ _ Ht E).
      unfold bind, modify, ret. rewrite IH.
      destruct (invocations B m ex h target k _) as [rs s3]. simpl.
      by rewrite <- app_assoc.
Qed.



(** ** The tracer's tag *)

Lemma loop_heap_length m ex h target k acc :
  frames (fun s s' => length (heap s') = length (heap s))
    (for_range k (repetition B m ex h target) acc).
Proof.
  apply frames_for_range; [done | intros; congruence |].
  intros a. apply frames_repetition; simpl; intros; try congruence.
  by rewrite length_insert.
Qed.

(** C7.  Whatever tag the tracer carries when the evaluator is called (none,
    or one set by an enclosing caller), and whatever the callees do to the
    tracer in between, once [run_llm_or_chain] ([m = Sync]) or
    [_arun_llm_or_chain] ([m = Async]) returns, the tracer carries that tag
    again; the outputs may be successes or failure markers. *)
Theorem evaluator_restores_example_id
    (m : Mode) (ex : Example) (h : Handle) (target : Target) (r : Z)
    (s : St) (t : Tracer) (outs : list Slot) (s' : St) :
  heap s !! h = Some t ->
  llm_or_chain B m ex h target r s = (Ret outs, s') ->
  exists t', heap s' !! h = Some t' /\ example_id t' = example_id t.
Proof.
  intros Hh H. unfold llm_or_chain in H.
  apply bind_ret_inv in H as (prev & s1 & H1 & H).
  unfold get_example_id, gets, deref in H1. rewrite Hh in H1.
  injection H1 as <- <-.
  apply bind_ret_inv in H as ([] & s2 & H2 & H).
  apply bind_ret_inv in H as (outs' & s3 & H3 & H).
  apply bind_ret_inv in H as ([] & s4 & H4 & H).
  injection H as _ <-.
  assert (Hlen : length (heap s3) = length (heap s)).
  { apply loop_heap_length in H3. rewrite H3.
    injection H2 as <-. simpl. rewrite Hh. by rewrite length_insert. }
  destruct (lookup_lt_is_Some_2 (heap s3) h) as [t3 Ht3].
  { rewrite Hlen. eapply lookup_lt_Some, Hh. }
  injection H4 as <-. simpl. rewrite Ht3.
  eexists. split.
  - apply list_lookup_insert_eq. eapply lookup_lt_Some, Ht3.
  - reflexivity.
Qed.

(** ** Factory targets *)

Lemma repetition_factory_block m ex h f outs s outs' s' :
  h < length (heap s) ->
  repetition B m ex h (ChainFactory f) outs s = (Ret outs', s') ->
  exists blk,
    factory_block m ex blk /\
    events s' = events s ++ blk /\
    length (heap s') = length (heap s).
Proof.
  intros Hh. apply lookup_lt_is_Some_2 in Hh as [t Ht].
  unfold repetition, try_except, invoke_target.
  unfold bind at 1. unfold bind at 1. unfold call_factory.
  destruct (f (world s)) as [[c|e] w].
  - unfold run_chain, call_with_tracer. simpl. rewrite Ht.
    destruct (chain_run B m c (inputs ex) t w) as [[[p|e] t'] w'].
    + unfold ret. intros [= <- <-]. simpl.
      eexists. split; [apply block_ran|]. split.
      * by rewrite <- app_assoc.
      * by rewrite length_insert.
    + destruct (is_Exception e); [|discriminate].
      unfold bind, modify, ret. intros [= <- <-]. simpl.
      eexists. split; [apply block_run_failed|]. split.
      * by rewrite <- !app_assoc.
      * by rewrite length_insert.
  - destruct (is_Exception e); [|discriminate].
    unfold bind, modify, ret. intros [= <- <-]. simpl.
    eexists. split; [apply block_factory_failed|]. split.
    + by rewrite <- !app_assoc.
    + done.
Qed.

Lemma loop_factory_blocks m ex h f k :
  forall acc s outs s',
    h < length (heap s) ->
    for_range k (repetition B m ex h (ChainFactory f)) acc s = (Ret outs, s') ->
    exists blocks,
      events s' = events s ++ concat blocks /\
      length blocks = k /\
      Forall (factory_block m ex) blocks.
Proof.
  induction k as [|k IH]; intros acc s outs s' Hh H; simpl in H.
  - injection H as _ <-. exists []. simpl. by rewrite app_nil_r.
  - apply bind_ret_inv in H as (acc' & s1 & H1 & H).
    apply repetition_factory_block in H1 as (blk & Hb & He & Hl); [|done].
    apply IH in H as (blocks & He' & Hn & Hall); [|by rewrite Hl].
    exists (blk :: blocks). simpl. split; [|split].
    + by rewrite He', He, <- app_assoc.
    + by rewrite Hn.
    + by constructor.
Qed.


(** ** Direct-model targets *)

(** The loop over a target that refuses every invocation with the same
    [Exception], leaving the store alone. *)
Lemma loop_refused m ex h target e :
  is_Exception e = true ->
  (forall s, invoke_target B m ex h target s = (Raise e, s)) ->
  forall k acc s,
    exists s',
      for_range k (repetition B m ex h target) acc s =
        (Ret (acc ++ replicate k (ErrorDict (exn_str e))), s') /\
      events s' = events s ++ replicate k (EvWarning (warning_text ex e)) /\
      heap s' = heap s.
Proof.
  intros Hexc Hrej. induction k as [|k IH]; intros acc s; simpl.
  - exists s. unfold ret. by rewrite !app_nil_r.
  - unfold bind at 1. unfold repetition at 1. unfold try_except, bind at 1.
    rewrite Hrej, Hexc. unfold bind, modify, ret.
    destruct (IH (acc ++ [ErrorDict (exn_str e)])
                (log (EvWarning (warning_text ex e)) s)) as (s' & -> & He & Hh).
    exists s'. split; [|split].
    + by rewrite <- app_assoc.
    + rewrite He. simpl. by rewrite <- app_assoc.
    + by rewrite Hh.
Qed.

Lemma evaluator_refused m ex h target e :
  is_Exception e = true ->
  (forall s, invoke_target B m ex h target s = (Raise e, s)) ->
  forall r s, exists s',
    llm_or_chain B m ex h target r s =
      (Ret (replicate (Z.to_nat r) (ErrorDict (exn_str e))), s') /\
    events s' = events s ++ replicate (Z.to_nat r) (EvWarning (warning_text ex e)).
Proof.
  intros Hexc Hrej r s. unfold llm_or_chain.
  unfold bind at 1. unfold get_example_id at 1, gets at 1.
  unfold bind at 1. unfold set_example_id at 1, modify at 1.
  unfold bind at 1.
  destruct (loop_refused m ex h target e Hexc Hrej (Z.to_nat r) []
              (set_heap
                 (fun hp => match hp !! h with
                            | Some t => <[h:=with_example_id (Some (id ex)) t]> hp
                            | None => hp
                            end) s)) as (s' & -> & He & Hh).
  unfold bind, set_example_id, modify, ret. simpl.
  eexists. split; [reflexivity|]. simpl. exact He.
Qed.

(** C9, as the code has it.  For a direct-model target the route is chosen
    by the type of the model, and the payload must then carry the field
    that type needs.  (1) A [BaseLLM] with a ["prompt"] field gets a
    text-completion call on that field.  (2) A [BaseChatModel] (that is not
    a [BaseLLM]) with a ["messages"] field that [messages_from_dict]
    converts gets a chat call on the converted messages.  (3) A model whose
    field is missing, or a model of neither type, raises [ValueError] at
    once, and (4) a chat model whose ["messages"] field the conversion
    rejects with an [Exception] raises that error: in both cases no call to
    the model is made and every repetition records the failure marker with
    the error's message.  (5) A conversion error outside [Exception] is not
    caught and leaves the evaluator.  (6) Every model and payload falls
    under one of these five cases. *)
Theorem direct_model_routes_by_model_type
    (m : Mode) (ex : Example) (h : Handle) (llm : LLM) :
  (is_BaseLLM llm = true ->
   forall p, inputs ex !! "prompt" = Some p ->
   forall s, invoke_target B m ex h (DirectModel llm) s =
             generate B m llm (PromptArg p) h s) /\
  (is_BaseLLM llm = false -> is_BaseChatModel llm = true ->
   forall raw msgs,
     inputs ex !! "messages" = Some raw -> messages_from_dict raw = Ret msgs ->
   forall s, invoke_target B m ex h (DirectModel llm) s =
             generate B m llm (MessagesArg msgs) h s) /\
  ((is_BaseLLM llm = true /\ inputs ex !! "prompt" = None) \/
   (is_BaseLLM llm = false /\ is_BaseChatModel llm = true /\
    inputs ex !! "messages" = None) \/
   (is_BaseLLM llm = false /\ is_BaseChatModel llm = false) ->
   exists msg,
     (forall s, invoke_target B m ex h (DirectModel llm) s =
                (Raise (mkExn ValueError msg), s)) /\
     forall r s, exists s',
       llm_or_chain B m ex h (DirectModel llm) r s =
         (Ret (replicate (Z.to_nat r) (ErrorDict msg)), s') /\
       events s' =
         events s ++
         replicate (Z.to_nat r) (EvWarning (warning_text ex (mkExn ValueError msg)))) /\
  (is_BaseLLM llm = false -> is_BaseChatModel llm = true ->
   forall raw e,
     inputs ex !! "messages" = Some raw -> messages_from_dict raw = Raise e ->
     is_Exception e = true ->
     (forall s, invoke_target B m ex h (DirectModel llm) s = (Raise e, s)) /\
     forall r s, exists s',
       llm_or_chain B m ex h (DirectModel llm) r s =
         (Ret (replicate (Z.to_nat r) (ErrorDict (exn_str e))), s') /\
       events s' =
         events s ++ replicate (Z.to_nat r) (EvWarning (warning_text ex e))) /\
  (is_BaseLLM llm = false -> is_BaseChatModel llm = true ->
   forall raw e,
     inputs ex !! "messages" = Some raw -> messages_from_dict raw = Raise e ->
     is_Exception e = false ->
     forall r s, (0 < r)%Z ->
       exists s', llm_or_chain B m ex h (DirectModel llm) r s = (Raise e, s') /\
                  events s' = events s) /\
  ((is_BaseLLM llm = true /\ exists p, inputs ex !! "prompt" = Some p) \/
   (is_BaseLLM llm = false /\ is_BaseChatModel llm = true /\
    exists raw msgs,
      inputs ex !! "messages" = Some raw /\ messages_from_dict raw = Ret msgs) \/
   ((is_BaseLLM llm = true /\ inputs ex !! "prompt" = None) \/
    (is_BaseLLM llm = false /\ is_BaseChatModel llm = true /\
     inputs ex !! "messages" = None) \/
    (is_BaseLLM llm = false /\ is_BaseChatModel llm = false)) \/
   (is_BaseLLM llm = false /\ is_BaseChatModel llm = true /\
    exists raw e,
      inputs ex !! "messages" = Some raw /\ messages_from_dict raw = Raise e /\
      is_Exception e = true) \/
   (is_BaseLLM llm = false /\ is_BaseChatModel llm = true /\
    exists raw e,
      inputs ex !! "messages" = Some raw /\ messages_from_dict raw = Raise e /\
      is_Exception e = false)).
Proof.
  split_and!.
  - intros Hl p Hp s. simpl. destruct m; unfold run_llm, _arun_llm;
      by rewrite Hl, Hp.
  - intros Hl Hc raw msgs Hraw Hm s. simpl.
    destruct m; unfold run_llm, _arun_llm; rewrite Hl, Hc, Hraw;
      unfold bind, lift; by rewrite Hm.
  - intros Hrej.
    assert (exists msg, forall s, invoke_target B m ex h (DirectModel llm) s =
                                  (Raise (mkExn ValueError msg), s)) as [msg Hmsg].
    { simpl. destruct Hrej as [[Hl Hp] | [(Hl & Hc & Hp) | [Hl Hc]]];
        destruct m; unfold run_llm, _arun_llm; rewrite Hl, ?Hc, ?Hp;
        eexists; intros s; reflexivity. }
    exists msg. split; [exact Hmsg|].
    exact (evaluator_refused m ex h (DirectModel llm) (mkExn ValueError msg)
             eq_refl Hmsg).
  - intros Hl Hc raw e Hraw Hm Hexc.
    assert (Hinv : forall s, invoke_target B m ex h (DirectModel llm) s =
                             (Raise e, s)).
    { intros s. simpl. destruct m; unfold run_llm, _arun_llm;
        rewrite Hl, Hc, Hraw; unfold bind, lift; by rewrite Hm. }
    split; [exact Hinv|].
    exact (evaluator_refused m ex h (DirectModel llm) e Hexc Hinv).
  - intros Hl Hc raw e Hraw Hm Hexc r s Hr.
    assert (Hinv : forall s, invoke_target B m ex h (DirectModel llm) s =
                             (Raise e, s)).
    { intros s0. simpl. destruct m; unfold run_llm, _arun_llm;
        rewrite Hl, Hc, Hraw; unfold bind, lift; by rewrite Hm. }
    unfold llm_or_chain.
    unfold bind at 1. unfold get_example_id at 1, gets at 1.
    unfold bind at 1. unfold set_example_id at 1, modify at 1.
    unfold bind at 1.
    destruct (Z.to_nat r) as [|k] eqn:Hk; [lia|]. simpl.
    unfold bind at 1. unfold repetition at 1. unfold try_except, bind at 1.
    rewrite Hinv, Hexc. eexists. split; [reflexivity|]. done.
  - destruct (is_BaseLLM llm) eqn:Hl.
    + destruct (inputs ex !! "prompt") as [p|] eqn:Hp.
      * left. eauto.
      * right; right; left. left. done.
    + destruct (is_BaseChatModel llm) eqn:Hc.
      * destruct (inputs ex !! "messages") as [raw|] eqn:Hraw.
        -- destruct (messages_from_dict raw) as [msgs|e] eqn:Hm.
           ++ right; left. split_and!; try done. eauto.
           ++ destruct (is_Exception e) eqn:Hexc.
              ** right; right; right; left. split_and!; try done.
                 exists raw, e. done.
              ** right; right; right; right. split_and!; try done.
                 exists raw, e. done.
        -- right; right; left. right; left. done.
      * right; right; left. right; right. done.
Qed.

(** ** Sequential mode *)

(** What the loop of [run_on_dataset] leaves in [example] and [result]. *)
Lemma last_cons {A} (l : list A) a d : List.last (a :: l) d = List.last l a.
Proof.
  revert a d. induction l as [|b l IH]; intros a d; [done|].
  change (List.last (a :: b :: l) d) with (List.last (b :: l) d).
  by rewrite !IH.
Qed.

Lemma sequential_loop_locals target r verbose tracer :
  forall (examples : list Example) i (locals : Locals) s locals' s',
    for_enumerate i examples (run_on_dataset_body B tracer target r verbose)
      locals s = (Ret locals', s') ->
    match examples with
    | [] => locals' = locals
    | e0 :: es => exists result, locals' = (Some (List.last es e0), Some result)
    end.
Proof.
  induction examples as [|e0 es IH]; intros i locals s locals' s' H; simpl in H.
  - by injection H as <- _.
  - apply bind_ret_inv in H as (acc & s1 & H1 & H).
    apply bind_ret_inv in H1 as (result & s2 & _ & H1).
    apply bind_ret_inv in H1 as ([] & s3 & _ & H1).
    injection H1 as <- _.
    apply IH in H.
    destruct es as [|e1 es'].
    + subst. eauto.
    + destruct H as [res ->]. exists res. by rewrite (last_cons es').
Qed.

(** C10.  On a dataset with no examples [run_on_dataset] never returns a
    map; once the tracer is built, the write after the loop reads the local
    [result], which the loop never bound, and the call raises
    [UnboundLocalError] (a [NameError]), the tracer set-up being the only
    call made. *)
Theorem run_on_dataset_no_examples
    (session : string) (target : Target) (r : Z) (verbose : bool) (s : St) :
  (forall m s', run_on_dataset B session [] target r verbose s <> (Ret m, s')) /\
  (forall d w,
     tracer_setup session (world s) = (Ret d, w) ->
     exists e s',
       run_on_dataset B session [] target r verbose s = (Raise e, s') /\
       exn_cls e = UnboundLocalError /\
       events s' = events s ++ [EvTracerSetup session] /\
       length (heap s') = S (length (heap s))).
Proof.
  unfold run_on_dataset, bind, new_tracer. simpl.
  split.
  - intros m s'. destruct (tracer_setup session (world s)) as [[d|e] w]; discriminate.
  - intros d w ->. simpl. eexists _, _. split; [reflexivity|]. simpl.
    split; [done|]. split; [done|]. rewrite length_app. simpl. lia.
Qed.

(** What sequential mode returns on a dataset that has examples: a map with
    the single key of the last example. *)
Lemma run_on_dataset_keeps_last session e0 es target r verbose s m s' :
  run_on_dataset B session (e0 :: es) target r verbose s = (Ret m, s') ->
  dom m = {[ id (List.last es e0) ]}.
Proof.
  unfold run_on_dataset. intros H.
  apply bind_ret_inv in H as (tracer & s1 & _ & H).
  apply bind_ret_inv in H as (locals & s2 & H2 & H).
  apply sequential_loop_locals in H2 as [result ->].
  injection H as <- _. by rewrite dom_insert_L, dom_empty_L, union_empty_r_L.
Qed.

(** ** The gate and the pool *)

Lemma count_pc_cons f pc ts :
  count_pc f (pc :: ts) = Nat.b2n (f pc) + count_pc f ts.
Proof. unfold count_pc. simpl. by destruct (f pc). Qed.

Lemma count_pc_insert f ts :
  forall i old new,
    ts !! i = Some old ->
    count_pc f (<[i := new]> ts) + Nat.b2n (f old) =
    count_pc f ts + Nat.b2n (f new).
Proof.
  induction ts as [|pc ts IH]; intros [|i] old new H; simplify_eq/=.
  - rewrite !count_pc_cons. lia.
  - rewrite !count_pc_cons. specialize (IH _ _ new H). lia.
Qed.

Lemma count_pc_replicate_Pending f k :
  f Pending = false -> count_pc f (replicate k Pending) = 0.
Proof.
  intros Hf. induction k as [|k IH]; [done|].
  simpl. by rewrite count_pc_cons, Hf, IH.
Qed.

Lemma count_holding_le_in_gate ts :
  count_pc is_holding ts <= count_pc in_gate ts.
Proof.
  induction ts as [|pc ts IH]; [done|].
  rewrite !count_pc_cons. destruct pc; simpl; lia.
Qed.

Lemma held_length ts : length (held ts) = count_pc is_holding ts.
Proof.
  induction ts as [|pc ts IH]; [done|].
  rewrite count_pc_cons. change (held (pc :: ts)) with (handle_of pc ++ held ts).
  rewrite length_app, IH. by destruct pc.
Qed.

Lemma held_insert ts :
  forall i old new,
    ts !! i = Some old ->
    handle_of old ++ held (<[i := new]> ts) ≡ₚ handle_of new ++ held ts.
Proof.
  induction ts as [|pc ts IH]; intros [|i] old new H; simplify_eq/=.
  - change (held (new :: ts)) with (handle_of new ++ held ts).
    change (held (old :: ts)) with (handle_of old ++ held ts).
    apply Permutation_app_swap_app.
  - change (held (pc :: <[i:=new]> ts)) with (handle_of pc ++ held (<[i:=new]> ts)).
    change (held (pc :: ts)) with (handle_of pc ++ held ts).
    rewrite (Permutation_app_swap_app (handle_of old)), (IH _ _ new H).
    apply Permutation_app_swap_app.
Qed.

Lemma held_replicate_Pending k : held (replicate k Pending) = [].
Proof. induction k as [|k IH]; [done|]. exact IH. Qed.

Lemma steps_left_insert ts :
  forall i old new,
    ts !! i = Some old ->
    list_sum (map steps_left (<[i := new]> ts)) + steps_left old =
    list_sum (map steps_left ts) + steps_left new.
Proof.
  induction ts as [|pc ts IH]; intros [|i] old new H; simplify_eq/=.
  - lia.
  - specialize (IH _ _ new H). lia.
Qed.

Lemma gather_inv_start funcs n pool s :
  length pool = n ->
  gather_inv (length funcs) n pool (start funcs n pool s).
Proof.
  intros Hn. unfold gather_inv, start. simpl.
  rewrite count_pc_replicate_Pending, held_replicate_Pending, length_replicate by done.
  rewrite app_nil_r. split; [lia|done].
Qed.

Lemma gather_inv_step funcs n pool sc sc' :
  gather_inv (length funcs) n pool sc ->
  step funcs sc sc' ->
  gather_inv (length funcs) n pool sc'.
Proof.
  intros (Hsem & Hpool & Hlen) Hstep. unfold gather_inv.
  destruct Hstep as [i p q ts fe s Hi | i p h q ts fe s Hi
                    | i p q ts fe s h f r s' Hi Hf Hrun | i p q ts fe s r Hi];
    simpl in *; rewrite length_insert; (split; [|split; [|done]]).
  - pose proof (count_pc_insert in_gate ts i _ Entered Hi). simpl in *. lia.
  - pose proof (held_insert ts i _ Entered Hi) as Hp. simpl in Hp. by rewrite Hp.
  - pose proof (count_pc_insert in_gate ts i _ (Holding h) Hi). simpl in *. lia.
  - pose proof (held_insert ts i _ (Holding h) Hi) as Hp. simpl in Hp.
    rewrite Hp. by rewrite <- Hpool, Permutation_middle.
  - pose proof (count_pc_insert in_gate ts i _ (Releasing r) Hi). simpl in *. lia.
  - pose proof (held_insert ts i _ (Releasing r) Hi) as Hp. simpl in Hp.
    by rewrite <- Hpool, <- Hp, <- app_assoc.
  - pose proof (count_pc_insert in_gate ts i _ (Finished r) Hi). simpl in *. lia.
  - pose proof (held_insert ts i _ (Finished r) Hi) as Hp. simpl in Hp. by rewrite Hp.
Qed.

Lemma gather_inv_steps funcs n pool sc sc' :
  gather_inv (length funcs) n pool sc ->
  steps funcs sc sc' ->
  gather_inv (length funcs) n pool sc'.
Proof.
  intros Hinv Hsteps. induction Hsteps as [|sc1 sc2 sc3 _ IH Hstep]; [done|].
  eapply gather_inv_step; [apply IH, Hinv | exact Hstep].
Qed.

Lemma fill_loop_length (initializer : M Handle) k :
  forall acc s q s',
    for_range k (fun tracer_queue =>
                   bind initializer (fun t => ret (tracer_queue ++ [t]))) acc s
      = (Ret q, s') ->
    length q = length acc + k.
Proof.
  induction k as [|k IH]; intros acc s q s' H; simpl in H.
  - injection H as <- _. lia.
  - apply bind_ret_inv in H as (acc' & s1 & H1 & H).
    apply bind_ret_inv in H1 as (t & s2 & _ & H1). injection H1 as <- _.
    apply IH in H. rewrite length_app in H. simpl in H. lia.
Qed.

Lemma gather_setup_ok n initializer s p q s0 :
  gather_setup n initializer s = (Ret (p, q), s0) ->
  (0 <= n)%Z /\ p = Z.to_nat n /\ length q = Z.to_nat n.
Proof.
  unfold gather_setup. intros H.
  apply bind_ret_inv in H as (sem & s1 & H1 & H).
  unfold Semaphore in H1. destruct (n <? 0)%Z eqn:Hn; [discriminate|].
  injection H1 as <- <-.
  apply bind_ret_inv in H as ([] & s2 & _ & H).
  apply bind_ret_inv in H as (tq & s3 & H3 & H).
  injection H as <- <- _.
  apply fill_loop_length in H3. simpl in H3.
  split; [lia | split; [done | exact H3]].
Qed.

Lemma gather_reachable_inv funcs n initializer s p q s0 sc :
  gather_setup n initializer s = (Ret (p, q), s0) ->
  steps funcs (start funcs p q s0) sc ->
  gather_inv (length funcs) (Z.to_nat n) q sc /\ length q = Z.to_nat n.
Proof.
  intros Hsetup Hsteps.
  apply gather_setup_ok in Hsetup as (_ & -> & Hq).
  split; [|done].
  eapply gather_inv_steps; [|exact Hsteps]. by apply gather_inv_start.
Qed.

(** C2.  In a run of [_gather_with_concurrency] with concurrency level [n]
    (the run [arun_on_dataset] starts), in every state every interleaving of
    the coroutines can reach, at most [n] coroutines are past the semaphore
    and not yet out of it, and at most [n] of them hold a tracer taken from
    the queue and not yet put back. *)
Theorem at_most_n_tracers_checked_out
    (funcs : list (Handle -> M unit)) (n : Z) (initializer : M Handle)
    (s : St) (p : nat) (q : list Handle) (s0 : St) (sc : Sched) :
  gather_setup n initializer s = (Ret (p, q), s0) ->
  steps funcs (start funcs p q s0) sc ->
  (Z.of_nat (count_pc in_gate (tasks sc)) <= n)%Z /\
  (Z.of_nat (count_pc is_holding (tasks sc)) <= n)%Z /\
  length (held (tasks sc)) = count_pc is_holding (tasks sc).
Proof.
  intros Hsetup Hsteps.
  destruct (gather_reachable_inv _ _ _ _ _ _ _ _ Hsetup Hsteps)
    as ((Hsem & _ & _) & _).
  apply gather_setup_ok in Hsetup as (Hn & _ & _).
  pose proof (count_holding_le_in_gate (tasks sc)).
  split; [lia | split; [lia | apply held_length]].
Qed.

Lemma pc_search (f : Pc -> bool) (ts : list Pc) :
  (exists i pc, ts !! i = Some pc /\ f pc = true) \/
  (forall i pc, ts !! i = Some pc -> f pc = false).
Proof.
  induction ts as [|pc ts [(i & pc' & Hi & Hf) | Hnone]].
  - right. intros i pc H. discriminate.
  - left. exists (S i), pc'. done.
  - destruct (f pc) eqn:Hf.
    + left. exists 0, pc. done.
    + right. intros [|i] pc' H; simplify_eq/=; [done | eapply Hnone, H].
Qed.

Lemma count_pc_none f ts :
  (forall i pc, ts !! i = Some pc -> f pc = false) -> count_pc f ts = 0.
Proof.
  induction ts as [|pc ts IH]; intros H; [done|].
  rewrite count_pc_cons, (H 0 pc), IH; [done | | done].
  intros i pc' Hi. apply (H (S i)), Hi.
Qed.

(** While a coroutine is unfinished, the run can take a step. *)
Lemma gather_progress funcs n pool sc :
  0 < n -> length pool = n ->
  gather_inv (length funcs) n pool sc ->
  (exists i pc, tasks sc !! i = Some pc /\ is_finished pc = false) ->
  exists sc', step funcs sc sc'.
Proof.
  intros Hn Hpool (Hsem & Hperm & Hlen) (j & pcj & Hj & Hunf).
  destruct sc as [p q ts fe s]. simpl in *.
  destruct (pc_search in_gate ts) as [(i & pc & Hi & Hg) | Hnone].
  - destruct pc as [| |h|r|r]; try discriminate.
    + destruct q as [|h q].
      * exfalso.
        pose proof (count_pc_insert in_gate ts i _ (Holding 0) Hi) as H1.
        pose proof (count_pc_insert is_holding ts i _ (Holding 0) Hi) as H2.
        pose proof (count_holding_le_in_gate (<[i:=Holding 0]> ts)) as H3.
        apply Permutation_length in Hperm. simpl in *.
        rewrite held_length in Hperm. lia.
      * eexists. by apply step_get.
    + destruct (lookup_lt_is_Some_2 funcs i) as [f Hf].
      { rewrite <- Hlen. eapply lookup_lt_Some, Hi. }
      destruct (f h s) as [r s'] eqn:Hrun.
      eexists. eapply step_run; eauto.
    + eexists. by eapply step_release.
  - rewrite (count_pc_none in_gate ts Hnone) in Hsem.
    destruct p as [|p]; [lia|].
    pose proof (Hnone _ _ Hj) as Hg.
    destruct pcj; try discriminate.
    eexists. by eapply step_acquire.
Qed.

Lemma step_work_left funcs sc sc' :
  step funcs sc sc' -> work_left sc' < work_left sc.
Proof.
  unfold work_left.
  intros [i p q ts fe s Hi | i p h q ts fe s Hi
         | i p q ts fe s h f r s' Hi Hf Hrun | i p q ts fe s r Hi]; simpl.
  - pose proof (steps_left_insert ts i _ Entered Hi). simpl in *. lia.
  - pose proof (steps_left_insert ts i _ (Holding h) Hi). simpl in *. lia.
  - pose proof (steps_left_insert ts i _ (Releasing r) Hi). simpl in *. lia.
  - pose proof (steps_left_insert ts i _ (Finished r) Hi). simpl in *. lia.
Qed.

Lemma steps_prepend funcs sc1 sc2 sc3 :
  step funcs sc1 sc2 -> steps funcs sc2 sc3 -> steps funcs sc1 sc3.
Proof.
  intros H12 H23. induction H23 as [|sc2 sc3 sc4 _ IH H34].
  - eapply steps_step; [apply steps_refl | exact H12].
  - eapply steps_step; [apply IH, H12 | exact H34].
Qed.

(** Every run can be carried on until all coroutines have finished, and no
    run is longer than four steps per coroutine. *)
Lemma gather_completes funcs n pool :
  0 < n -> length pool = n ->
  forall k sc,
    work_left sc <= k ->
    gather_inv (length funcs) n pool sc ->
    exists sc', steps funcs sc sc' /\ forallb is_finished (tasks sc') = true.
Proof.
  intros Hn Hpool. induction k as [|k IH]; intros sc Hk Hinv.
  - exists sc. split; [apply steps_refl|].
    apply forallb_forall. intros pc Hin.
    unfold work_left in Hk.
    assert (steps_left pc = 0) as H0.
    { revert Hk Hin. generalize (tasks sc). intros ts.
      induction ts as [|a ts IHts]; simpl; [done|].
      intros Hk [->|Hin]; [lia | apply IHts; [lia | done]]. }
    by destruct pc.
  - destruct (pc_search (fun pc => negb (is_finished pc)) (tasks sc))
      as [(i & pc & Hi & Hunf) | Hall].
    + destruct (gather_progress funcs n pool sc Hn Hpool Hinv) as [sc1 Hstep].
      { exists i, pc. split; [done|]. by destruct (is_finished pc). }
      pose proof (step_work_left _ _ _ Hstep).
      destruct (IH sc1) as (sc' & Hsteps & Hfin); [lia | |].
      { eapply gather_inv_step; eauto. }
      exists sc'. split; [eapply steps_prepend; eauto | done].
    + exists sc. split; [apply steps_refl|].
      apply forallb_forall. intros pc Hin.
      apply list_elem_of_In, list_elem_of_lookup in Hin as [i Hi].
      specialize (Hall i pc Hi). by destruct (is_finished pc).
Qed.

Lemma held_finished ts : forallb is_finished ts = true -> held ts = [].
Proof.
  induction ts as [|pc ts IH]; [done|]. simpl.
  intros [Hpc Hts]%andb_prop.
  change (held (pc :: ts)) with (handle_of pc ++ held ts).
  rewrite (IH Hts). by destruct pc.
Qed.

(** C4.  In every reachable state of a concurrent run: a coroutine that
    holds a tracer can leave its [try] block, and however it leaves it, with
    a result or with an exception raised by the evaluation or by the
    bookkeeping after it, the same step puts the tracer back at the end of
    the queue; the tracers in the queue and the ones held are, together,
    the pool that was built; and (for a positive concurrency level) the run
    can always be carried on until every coroutine has finished, with the
    whole pool back in the queue. *)
Theorem tracer_checked_in_on_every_exit
    (funcs : list (Handle -> M unit)) (n : Z) (initializer : M Handle)
    (s : St) (p : nat) (q : list Handle) (s0 : St) (sc : Sched) :
  gather_setup n initializer s = (Ret (p, q), s0) ->
  steps funcs (start funcs p q s0) sc ->
  (forall i h f,
     tasks sc !! i = Some (Holding h) -> funcs !! i = Some f ->
     (exists sc', step funcs sc sc' /\
        tasks sc' !! i = Some (Releasing (fst (f h (store sc)))) /\
        tracer_queue sc' = tracer_queue sc ++ [h]) /\
     (forall sc', step funcs sc sc' ->
        tasks sc' !! i = Some (Holding h) \/
        (tasks sc' !! i = Some (Releasing (fst (f h (store sc)))) /\
         tracer_queue sc' = tracer_queue sc ++ [h]))) /\
  tracer_queue sc ++ held (tasks sc) ≡ₚ q /\
  length q = Z.to_nat n /\
  ((0 < n)%Z ->
   exists sc', steps funcs sc sc' /\
     forallb is_finished (tasks sc') = true /\
     tracer_queue sc' ≡ₚ q).
Proof.
  intros Hsetup Hsteps.
  destruct (gather_reachable_inv _ _ _ _ _ _ _ _ Hsetup Hsteps) as (Hinv & Hq).
  split; [|split; [apply Hinv | split; [exact Hq|]]].
  - intros i h f Hi Hf. split.
    + destruct sc as [p' q' ts fe st]. simpl in *.
      destruct (f h st) as [r st'] eqn:Hrun.
      eexists. split; [eapply step_run; eauto|]. simpl. split; [|done].
      apply list_lookup_insert_eq. eapply lookup_lt_Some, Hi.
    + intros sc' Hstep.
      destruct Hstep as [j p' q' ts fe st Hj | j p' h' q' ts fe st Hj
                        | j p' q' ts fe st h' f' r st' Hj Hf' Hrun
                        | j p' q' ts fe st r Hj]; simpl in *.
      * left. destruct (decide (j = i)) as [->|Hne]; [congruence|].
        by rewrite list_lookup_insert_ne.
      * left. destruct (decide (j = i)) as [->|Hne]; [congruence|].
        by rewrite list_lookup_insert_ne.
      * destruct (decide (j = i)) as [->|Hne].
        -- right. rewrite Hi in Hj. injection Hj as <-.
           rewrite Hf in Hf'. injection Hf' as <-. rewrite Hrun. simpl.
           split; [|done].
           apply list_lookup_insert_eq. eapply lookup_lt_Some, Hi.
        -- left. by rewrite list_lookup_insert_ne.
      * left. destruct (decide (j = i)) as [->|Hne]; [congruence|].
        by rewrite list_lookup_insert_ne.
  - intros Hn.
    destruct (gather_completes funcs (Z.to_nat n) q ltac:(lia) Hq
                (work_left sc) sc ltac:(lia) Hinv) as (sc' & Hsteps' & Hfin).
    exists sc'. split; [done | split; [done|]].
    destruct (gather_inv_steps _ _ _ _ _ Hinv Hsteps') as (_ & Hperm & _).
    by rewrite (held_finished _ Hfin), app_nil_r in Hperm.
Qed.

(** ** Failures of the set-up *)

(** Building the pool only sets tracers up. *)
Lemma fill_queue_frames session n :
  frames (fun s s' =>
            results s' = results s /\ num_processed s' = num_processed s /\
            exists k, events s' = events s ++ replicate k (EvTracerSetup session))
    (fill_queue n (new_tracer session)).
Proof.
  unfold fill_queue. apply frames_for_range.
  - intros s. split; [done | split; [done|]]. exists 0. by rewrite app_nil_r.
  - intros s1 s2 s3 (Hr1 & Hn1 & k1 & He1) (Hr2 & Hn2 & k2 & He2).
    split; [congruence | split; [congruence|]].
    exists (k1 + k2). by rewrite He2, He1, replicate_add, app_assoc.
  - intros acc s r s'. unfold bind, new_tracer.
    destruct (tracer_setup session (world (log (EvTracerSetup session) s)))
      as [[d|e] w]; intros [= <- <-]; simpl;
      (split; [done | split; [done|]]); by exists 1.
Qed.

(** C5.  If setting a tracer up raises while the queue is being filled,
    [arun_on_dataset] ends by raising that very error, and in no other way;
    in the store it leaves, the result map is empty, the counter is zero,
    and the only calls logged are tracer set-ups: no factory, chain or model
    was called, so no coroutine ran. *)
Theorem pool_failure_aborts_before_any_work
    (session : string) (examples : list Example) (target : Target)
    (cl r : Z) (verbose : bool) (s : St) (e : exn) (s' : St) :
  fill_queue cl (new_tracer session)
    (set_num_processed 0 (set_results (fun _ => ∅) s)) = (Raise e, s') ->
  arun_on_dataset B session examples target cl r verbose s (Raise e) s' /\
  (forall out s'',
     arun_on_dataset B session examples target cl r verbose s out s'' ->
     out = Raise e /\ s'' = s') /\
  results s' = ∅ /\
  num_processed s' = 0%Z /\
  exists k, events s' = events s ++ replicate k (EvTracerSetup session).
Proof.
  intros Hfill.
  assert (Hsetup : gather_setup cl (new_tracer session)
                     (set_results (fun _ => ∅) s) = (Raise e, s')).
  { unfold gather_setup, Semaphore.
    destruct (cl <? 0)%Z eqn:Hcl.
    - exfalso. unfold fill_queue in Hfill.
      replace (Z.to_nat cl) with 0 in Hfill by lia. discriminate.
    - unfold bind at 1. unfold ret at 1. unfold bind at 1. unfold modify at 1.
      unfold bind. by rewrite Hfill. }
  split; [|split].
  - apply arun_raises. by apply gather_setup_raises.
  - intros out s'' Hrun.
    destruct Hrun as [s1 Hg | e1 s1 Hg]; inversion Hg as
        [e3 s3 Hs | p q s3 sc Hs Hst Hfin | p q s3 sc e3 Hs Hst Hfe]; subst;
      rewrite Hsetup in Hs; try discriminate; by injection Hs as <- <-.
  - apply fill_queue_frames in Hfill as (Hr & Hn & Hk). simpl in *. done.
Qed.




(** ** The result map of a concurrent run *)

Lemma loop_length m ex h target k :
  forall acc s outs s',
    for_range k (repetition B m ex h target) acc s = (Ret outs, s') ->
    length outs = length acc + k.
Proof.
  induction k as [|k IH]; intros acc s outs s' H; simpl in H.
  - injection H as <- _. lia.
  - apply bind_ret_inv in H as (acc' & s1 & H1 & H).
    apply IH in H. rewrite H.
    unfold repetition, try_except, bind, modify, ret in H1.
    destruct (invoke_target B m ex h target s) as [[p|e] s2].
    + injection H1 as <- _. rewrite length_app. simpl. lia.
    + destruct (is_Exception e); [|discriminate].
      injection H1 as <- _. rewrite length_app. simpl. lia.
Qed.

Lemma llm_or_chain_length m ex h target r s outs s' :
  llm_or_chain B m ex h target r s = (Ret outs, s') ->
  length outs = Z.to_nat r.
Proof.
  intros H. unfold llm_or_chain in H.
  apply bind_ret_inv in H as (prev & s1 & _ & H).
  apply bind_ret_inv in H as ([] & s2 & _ & H).
  apply bind_ret_inv in H as (outs' & s3 & H3 & H).
  apply bind_ret_inv in H as ([] & s4 & _ & H).
  injection H as <- _. by apply loop_length in H3.
Qed.

Lemma llm_or_chain_results m ex h target n :
  frames (fun s s' => results s' = results s /\ num_processed s' = num_processed s)
    (llm_or_chain B m ex h target n).
Proof.
  apply frames_llm_or_chain; simpl; try done.
  intros s1 s2 s3 [? ?] [? ?]. split; congruence.
Qed.

(** A unit of work writes its own entry, once the evaluator has returned,
    and no other. *)
Lemma process_example_results target r verbose ex h s out s' :
  process_example B target r verbose ex h s = (out, s') ->
  match out with
  | Ret _ =>
      exists result,
        results s' = <[id ex := result]> (results s) /\
        length result = Z.to_nat r
  | Raise _ => results s' = results s
  end.
Proof.
  unfold process_example. unfold bind at 1.
  destruct (_arun_llm_or_chain B ex h target r s) as [[result|e] s1] eqn:E.
  - pose proof (llm_or_chain_results _ _ _ _ _ _ _ _ E) as [Hr _].
    apply llm_or_chain_length in E.
    unfold bind, modify, gets, print. destruct verbose; intros [= <- <-];
      exists result; simpl; by rewrite Hr.
  - pose proof (llm_or_chain_results _ _ _ _ _ _ _ _ E) as [Hr _].
    by intros [= <- <-].
Qed.

Lemma arun_steps_results examples target r verbose p q s0 sc :
  results s0 = ∅ ->
  steps (arun_funcs B examples target r verbose)
    (start (arun_funcs B examples target r verbose) p q s0) sc ->
  (forall i ex,
     examples !! i = Some ex ->
     tasks sc !! i = Some (Releasing (Ret tt)) \/
     tasks sc !! i = Some (Finished (Ret tt)) ->
     exists result,
       results (store sc) !! id ex = Some result /\ length result = Z.to_nat r) /\
  dom (results (store sc)) ⊆ list_to_set (id <$> examples).
Proof.
  intros Hempty Hsteps.
  remember (start (arun_funcs B examples target r verbose) p q s0) as sc0 eqn:E0.
  induction Hsteps as [|sc1 sc2 sc3 _ IH Hstep].
  - subst. simpl. rewrite Hempty. split; [|set_solver].
    intros i ex _ [H|H]; apply lookup_replicate in H as [? _]; discriminate.
  - destruct (IH E0) as [IHin IHsub]. clear IH.
    destruct Hstep as [j p' q' ts fe st Hj | j p' h' q' ts fe st Hj
                      | j p' q' ts fe st h' f' out st' Hj Hf' Hrun
                      | j p' q' ts fe st out Hj]; simpl in *.
    + split; [|done]. intros i ex Hex Hpc.
      destruct (decide (j = i)) as [->|Hne].
      * rewrite list_lookup_insert_eq in Hpc by (eapply lookup_lt_Some, Hj).
        destruct Hpc; discriminate.
      * rewrite list_lookup_insert_ne in Hpc by done. eauto.
    + split; [|done]. intros i ex Hex Hpc.
      destruct (decide (j = i)) as [->|Hne].
      * rewrite list_lookup_insert_eq in Hpc by (eapply lookup_lt_Some, Hj).
        destruct Hpc; discriminate.
      * rewrite list_lookup_insert_ne in Hpc by done. eauto.
    + unfold arun_funcs in Hf'. rewrite list_lookup_fmap in Hf'.
      destruct (examples !! j) as [exj|] eqn:Hexj; [|discriminate].
      injection Hf' as <-.
      apply process_example_results in Hrun.
      split.
      * intros i ex Hex Hpc.
        destruct (decide (j = i)) as [->|Hne].
        -- rewrite list_lookup_insert_eq in Hpc by (eapply lookup_lt_Some, Hj).
           rewrite Hexj in Hex. injection Hex as <-.
           destruct Hpc as [Hpc|Hpc]; [|discriminate]. injection Hpc as ->.
           destruct Hrun as (result & -> & Hlen).
           exists result. by rewrite lookup_insert_eq.
        -- rewrite list_lookup_insert_ne in Hpc by done.
           destruct (IHin i ex Hex Hpc) as (result & Hres & Hlen).
           destruct out as [u|e].
           ++ destruct Hrun as (result' & -> & Hlen').
              destruct (decide (id exj = id ex)) as [Heq|Hneq].
              ** exists result'. by rewrite Heq, lookup_insert_eq.
              ** exists result. by rewrite lookup_insert_ne.
           ++ exists result. by rewrite Hrun.
      * destruct out as [u|e].
        -- destruct Hrun as (result' & -> & _). rewrite dom_insert.
           apply list_elem_of_lookup_2, (list_elem_of_fmap_2 id) in Hexj.
           apply union_subseteq. split; [|exact IHsub].
           by apply singleton_subseteq_l, elem_of_list_to_set.
        -- by rewrite Hrun.
    + split; [|done]. intros i ex Hex Hpc.
      destruct (decide (j = i)) as [->|Hne].
      * rewrite list_lookup_insert_eq in Hpc by (eapply lookup_lt_Some, Hj).
        destruct Hpc as [Hpc|Hpc]; [discriminate|]. injection Hpc as ->.
        apply (IHin i ex Hex). by left.
      * rewrite list_lookup_insert_ne in Hpc by done. eauto.
Qed.

(** Concurrent mode does what C1 asks: when [arun_on_dataset] returns, the
    keys of the map are exactly the identifiers of the examples, and every
    entry has [num_repetitions] slots. *)
Lemma arun_on_dataset_returns_every_example
    session examples target cl r verbose s m s' :
  arun_on_dataset B session examples target cl r verbose s (Ret m) s' ->
  dom m = list_to_set (id <$> examples) /\
  forall ex, ex ∈ examples ->
    exists result, m !! id ex = Some result /\ length result = Z.to_nat r.
Proof.
  intros Hrun. inversion Hrun as [s1 Hg Hm Hs|]; subst. clear Hrun.
  inversion Hg as [| p q s0 sc Hsetup Hsteps Hfin Hout Hsc |]; subst. clear Hg.
  assert (Hempty : results s0 = ∅).
  { unfold gather_setup in Hsetup.
    apply bind_ret_inv in Hsetup as (sem & s1 & H1 & H).
    unfold Semaphore in H1. destruct (cl <? 0)%Z; [discriminate|].
    injection H1 as _ <-.
    apply bind_ret_inv in H as ([] & s2 & H2 & H). injection H2 as <-.
    apply bind_ret_inv in H as (tq & s3 & H3 & H). injection H as _ _ <-.
    by apply fill_queue_frames in H3 as (-> & _). }
  destruct (gather_reachable_inv _ _ _ _ _ _ _ _ Hsetup Hsteps)
    as ((_ & _ & Hlen) & _).
  destruct (arun_steps_results _ _ _ _ _ _ _ _ Hempty Hsteps) as [Hin Hsub].
  assert (Hall : forall ex, ex ∈ examples ->
            exists result, results (store sc) !! id ex = Some result /\
                           length result = Z.to_nat r).
  { intros ex [i Hi]%list_elem_of_lookup.
    destruct (lookup_lt_is_Some_2 (tasks sc) i) as [pc Hpc].
    { rewrite Hlen. unfold arun_funcs. rewrite length_map.
      eapply lookup_lt_Some, Hi. }
    apply (Hin i ex Hi). right. rewrite Hpc.
    assert (finished_ok pc = true) as Hok.
    { rewrite forallb_forall in Hfin. apply Hfin.
      apply list_elem_of_In. eapply list_elem_of_lookup_2, Hpc. }
    destruct pc as [| | | |[[]|]]; try discriminate. done. }
  split; [|exact Hall].
  apply set_eq. intros k. split.
  - intros Hk. by apply Hsub.
  - intros Hk. apply elem_of_list_to_set, list_elem_of_fmap in Hk as (ex & -> & Hex).
    apply elem_of_dom. destruct (Hall ex Hex) as (result & Hres & _). eauto.
Qed.

End Facts.

(** * Further properties of the engine *)

Section MoreFacts.
Context `{RT : Runtime} (B : Behaviour).

(** ** The evaluator *)

Lemma llm_or_chain_total m ex h target r s :
  raises_only_Exception B target ->
  exists outs s', llm_or_chain B m ex h target r s = (Ret outs, s').
Proof.
  intros Ht. unfold llm_or_chain.
  unfold bind at 1. unfold get_example_id at 1, gets at 1.
  unfold bind at 1. unfold set_example_id at 1, modify at 1.
  unfold bind at 1. rewrite (loop_is_invocations B m ex h target Ht).
  unfold bind, set_example_id, modify, ret. eauto.
Qed.

Lemma with_example_id_back (t : Tracer) v :
  with_example_id (example_id t) (with_example_id v t) = t.
Proof. by destruct t. Qed.

(** X7.  A repetitions count of zero or less makes the evaluator a no-op:
    [range] is empty, no call is made, the output list is empty and the
    store, the tracer's tag included, is exactly what it was. *)
Theorem no_repetitions_is_a_no_op
    (m : Mode) (ex : Example) (h : Handle) (target : Target) (r : Z) (s : St) :
  (r <= 0)%Z ->
  llm_or_chain B m ex h target r s = (Ret [], s).
Proof.
  intros Hr. unfold llm_or_chain, bind, get_example_id, gets, deref,
    set_example_id, modify, ret.
  replace (Z.to_nat r) with 0 by lia. simpl.
  f_equal. destruct s as [hp w ev rs np]. unfold set_heap. simpl. f_equal.
  destruct (hp !! h) as [t|] eqn:Ht; [|by rewrite Ht].
  rewrite list_lookup_insert_eq by (eapply lookup_lt_Some, Ht).
  rewrite list_insert_insert_eq, with_example_id_back.
  by apply list_insert_id.
Qed.

Lemma only_tracer_touched_refl h s : only_tracer_touched h s s.
Proof. by repeat split. Qed.

Lemma only_tracer_touched_trans h s1 s2 s3 :
  only_tracer_touched h s1 s2 -> only_tracer_touched h s2 s3 ->
  only_tracer_touched h s1 s3.
Proof.
  intros (Hl1 & Hh1 & Hr1 & Hn1) (Hl2 & Hh2 & Hr2 & Hn2).
  split; [congruence | split; [|split; congruence]].
  intros h' Hne. by rewrite Hh2, Hh1.
Qed.

Lemma only_tracer_touched_store h t s :
  only_tracer_touched h s (set_heap (fun hp => <[h := t]> hp) s).
Proof.
  split; [simpl; by rewrite length_insert | split; [|done]].
  intros h' Hne. simpl. by rewrite list_lookup_insert_ne.
Qed.

Lemma touched_set_example_id h v :
  frames (only_tracer_touched h) (set_example_id h v).
Proof.
  apply frames_modify. intros s. unfold set_heap at 1.
  destruct (heap s !! h) as [t|] eqn:E.
  - apply (only_tracer_touched_store h (with_example_id v t) s).
  - destruct s. apply only_tracer_touched_refl.
Qed.

Lemma touched_call_with_tracer ev c h :
  frames (only_tracer_touched h) (call_with_tracer ev c h).
Proof.
  intros s r s'. unfold call_with_tracer.
  destruct (heap s !! h) as [t|].
  - destruct (c t (world (log (ev (example_id t)) s))) as [[r0 t'] w].
    intros [= <- <-].
    eapply only_tracer_touched_trans; [|apply only_tracer_touched_store].
    by repeat split.
  - intros [= <- <-]. apply only_tracer_touched_refl.
Qed.

Lemma touched_invoke_target m ex h target :
  frames (only_tracer_touched h) (invoke_target B m ex h target).
Proof.
  pose proof (only_tracer_touched_refl h) as Hrefl.
  pose proof (only_tracer_touched_trans h) as Htrans.
  destruct target as [llm|f]; simpl.
  - destruct m; unfold run_llm, _arun_llm;
      (destruct (is_BaseLLM llm); [|destruct (is_BaseChatModel llm)]).
    all: try (destruct (inputs ex !! "prompt");
              [apply touched_call_with_tracer | by apply frames_raise]).
    all: try (by apply frames_raise).
    all: destruct (inputs ex !! "messages"); [|by apply frames_raise];
      (apply frames_bind; [done | by apply frames_lift |
                           intros; apply touched_call_with_tracer]).
  - apply frames_bind; [done | | intros; apply touched_call_with_tracer].
    intros s r s'. unfold call_factory. destruct (f (world s)) as [r0 w].
    intros [= <- <-]. by repeat split.
Qed.

Lemma llm_or_chain_only_tracer_touched m ex h target r :
  frames (only_tracer_touched h) (llm_or_chain B m ex h target r).
Proof.
  pose proof (only_tracer_touched_refl h) as Hrefl.
  pose proof (only_tracer_touched_trans h) as Htrans.
  unfold llm_or_chain.
  apply frames_bind; [done | by apply frames_gets | intros prev].
  apply frames_bind; [done | apply touched_set_example_id | intros _].
  apply frames_bind; [done | | intros outs].
  - apply frames_for_range; [done | done | intros acc].
    apply frames_try_except; [done | |].
    + apply frames_bind; [done | apply touched_invoke_target |].
      intros; by apply frames_ret.
    + intros e. apply frames_bind; [done | | intros; by apply frames_ret].
      apply frames_modify. intros s. by repeat split.
  - apply frames_bind; [done | apply touched_set_example_id |].
    intros; by apply frames_ret.
Qed.

(** X8.  The evaluator works on the tracer it was handed and on nothing else of
    the engine: whether it returns or raises, every other tracer is what it
    was, no tracer was created, and the result map and the progress counter
    are untouched. *)
Theorem evaluator_touches_only_its_tracer
    (m : Mode) (ex : Example) (h : Handle) (target : Target) (r : Z)
    (s : St) (out : res (list Slot)) (s' : St) :
  llm_or_chain B m ex h target r s = (out, s') ->
  only_tracer_touched h s s'.
Proof. apply llm_or_chain_only_tracer_touched. Qed.

(** ** Attribution of the calls *)

(** Every call event among [new] was made under the tag of [ex]. *)
Lemma tagged_nil (ex : Example) :
  Forall (fun e => forall tag, call_tag e = Some tag -> tag = Some (id ex)) [].
Proof. constructor. Qed.

Lemma loop_calls_tagged m ex h target :
  callees_keep_tag B ->
  forall k acc s r s' t,
    heap s !! h = Some t -> example_id t = Some (id ex) ->
    for_range k (repetition B m ex h target) acc s = (r, s') ->
    exists new,
      events s' = events s ++ new /\
      Forall (fun e => forall tag, call_tag e = Some tag -> tag = Some (id ex)) new.
Proof.
  intros [Hgen Hrun].
  assert (Hcall : forall ev c s r s' t,
            callee_keeps_tag c ->
            (forall tag, call_tag (ev tag) = Some tag) ->
            heap s !! h = Some t -> example_id t = Some (id ex) ->
            call_with_tracer ev c h s = (r, s') ->
            (exists t', heap s' !! h = Some t' /\ example_id t' = Some (id ex)) /\
            exists new,
              events s' = events s ++ new /\
              Forall (fun e => forall tag, call_tag e = Some tag ->
                                           tag = Some (id ex)) new).
  { intros ev c s r s' t Hc Hev Ht Htag. unfold call_with_tracer. rewrite Ht.
    destruct (c t (world (log (ev (example_id t)) s))) as [[r0 t'] w] eqn:E.
    intros [= <- <-]. simpl. split.
    - exists t'. split.
      + apply list_lookup_insert_eq. eapply lookup_lt_Some, Ht.
      + by rewrite (Hc _ _ _ _ _ E).
    - eexists. split; [reflexivity|]. constructor; [|constructor].
      intros tag. rewrite Hev, Htag. by intros [= <-]. }
  assert (Hinv : forall s r s' t,
            heap s !! h = Some t -> example_id t = Some (id ex) ->
            invoke_target B m ex h target s = (r, s') ->
            (exists t', heap s' !! h = Some t' /\ example_id t' = Some (id ex)) /\
            exists new,
              events s' = events s ++ new /\
              Forall (fun e => forall tag, call_tag e = Some tag ->
                                           tag = Some (id ex)) new).
  { intros s r s' t Ht Htag.
    assert (Hstay : forall (r0 : res Payload), (r0, s) = (r, s') ->
              (exists t', heap s' !! h = Some t' /\ example_id t' = Some (id ex)) /\
              exists new,
                events s' = events s ++ new /\
                Forall (fun e => forall tag, call_tag e = Some tag ->
                                             tag = Some (id ex)) new).
    { intros r0 [= _ <-]. split; [eauto|]. exists []. by rewrite app_nil_r. }
    destruct target as [llm|f]; simpl.
    - destruct m; unfold run_llm, _arun_llm, generate, raise;
        (destruct (is_BaseLLM llm); [|destruct (is_BaseChatModel llm)]).
      all: try (destruct (inputs ex !! "prompt");
                [by eapply Hcall | by apply Hstay]).
      all: try (by apply Hstay).
      all: destruct (inputs ex !! "messages") as [raw|]; [|by apply Hstay];
        unfold bind, lift; destruct (messages_from_dict raw);
        [by eapply Hcall | by apply Hstay].
    - unfold bind, call_factory.
      destruct (f (world s)) as [[c|e] w].
      + intros Hc.
        eapply (Hcall _ _ _ _ _ t) in Hc as (Ht' & new & He & Hall);
          [| apply Hrun | done | exact Ht | exact Htag].
        split; [done|]. simpl in He. eexists. split.
        * rewrite He, <- app_assoc. reflexivity.
        * constructor; [intros tag; discriminate | done].
      + intros [= <- <-]. simpl. split; [eauto|].
        eexists. split; [reflexivity|].
        constructor; [intros tag; discriminate | constructor]. }
  induction k as [|k IH]; intros acc s r s' t Ht Htag H; simpl in H.
  - injection H as _ <-. exists []. by rewrite app_nil_r.
  - unfold bind at 1 in H. unfold repetition at 1, try_except, bind at 1 in H.
    destruct (invoke_target B m ex h target s) as [[p|e] s1] eqn:E;
      destruct (Hinv _ _ _ _ Ht Htag E) as ((t1 & Ht1 & Htag1) & new1 & He1 & Hall1).
    + unfold ret in H.
      destruct (IH _ _ _ _ _ Ht1 Htag1 H) as (new2 & He2 & Hall2).
      exists (new1 ++ new2). split; [by rewrite He2, He1, app_assoc|].
      by apply Forall_app.
    + destruct (is_Exception e).
      * unfold bind, modify, ret in H.
        destruct (IH _ (log (EvWarning (warning_text ex e)) s1) _ _ t1
                    Ht1 Htag1 H) as (new2 & He2 & Hall2).
        simpl in He2.
        exists (new1 ++ EvWarning (warning_text ex e) :: new2).
        split; [by rewrite He2, He1, <- !app_assoc|].
        apply Forall_app. split; [done|].
        constructor; [intros tag; discriminate | done].
      * injection H as _ <-. exists new1. done.
Qed.

(** X9.  When the callees leave the tracer's tag alone, every call the evaluator
    makes into a model or a chain, in every repetition and on the failing
    paths too, is made while the tracer carries the identifier of the
    example under evaluation. *)
Theorem calls_carry_the_example_tag
    (m : Mode) (ex : Example) (h : Handle) (target : Target) (r : Z)
    (s : St) (out : res (list Slot)) (s' : St) :
  callees_keep_tag B ->
  h < length (heap s) ->
  llm_or_chain B m ex h target r s = (out, s') ->
  exists new,
    events s' = events s ++ new /\
    Forall (fun e => forall tag, call_tag e = Some tag -> tag = Some (id ex)) new.
Proof.
  intros Hk Hh H. apply lookup_lt_is_Some_2 in Hh as [t Ht].
  unfold llm_or_chain in H.
  unfold bind at 1 in H. unfold get_example_id at 1, gets at 1 in H.
  unfold bind at 1 in H. unfold set_example_id at 1, modify at 1 in H.
  unfold bind at 1 in H.
  destruct (for_range (Z.to_nat r) (repetition B m ex h target) [] _)
    as [[outs|e] s3] eqn:E.
  - eapply (loop_calls_tagged m ex h target Hk) in E as (new & He & Hall).
    + unfold bind, set_example_id, modify, ret in H. injection H as _ <-.
      simpl in *. eauto.
    + simpl. rewrite Ht. apply list_lookup_insert_eq. eapply lookup_lt_Some, Ht.
    + reflexivity.
  - eapply (loop_calls_tagged m ex h target Hk) in E as (new & He & Hall).
    + injection H as _ <-. simpl in *. eauto.
    + simpl. rewrite Ht. apply list_lookup_insert_eq. eapply lookup_lt_Some, Ht.
    + reflexivity.
Qed.

(** ** Counting the calls of a sequential batch *)

Lemma count_events_app f l1 l2 :
  count_events f (l1 ++ l2) = count_events f l1 + count_events f l2.
Proof. unfold count_events. by rewrite List.filter_app, length_app. Qed.

Lemma blocks_count m ex blocks :
  Forall (factory_block m ex) blocks ->
  count_events is_factory_call (concat blocks) = length blocks /\
  count_events is_tracer_setup (concat blocks) = 0.
Proof.
  induction 1 as [|blk blocks Hb _ [IH1 IH2]]; [done|].
  simpl. rewrite !count_events_app, IH1, IH2.
  by destruct Hb.
Qed.

Lemma evaluator_factory_count m ex h f r s outs s' :
  h < length (heap s) ->
  llm_or_chain B m ex h (ChainFactory f) r s = (Ret outs, s') ->
  count_events is_factory_call (events s') =
    count_events is_factory_call (events s) + Z.to_nat r /\
  count_events is_tracer_setup (events s') =
    count_events is_tracer_setup (events s).
Proof.
  intros Hh H. unfold llm_or_chain in H.
  apply bind_ret_inv in H as (prev & s1 & H1 & H). injection H1 as _ <-.
  apply bind_ret_inv in H as ([] & s2 & H2 & H). injection H2 as <-.
  apply bind_ret_inv in H as (outs' & s3 & H3 & H).
  apply bind_ret_inv in H as ([] & s4 & H4 & H).
  injection H4 as <-. injection H as _ <-.
  apply loop_factory_blocks in H3 as (blocks & He & Hn & Hall).
  - simpl in *. rewrite He, !count_events_app.
    destruct (blocks_count _ _ _ Hall) as [-> ->]. lia.
  - simpl. destruct (heap s !! h); [by rewrite length_insert | done].
Qed.

Lemma sequential_loop_counts tracer f r verbose :
  forall (examples : list Example) i (locals : Locals) s locals' s',
    tracer < length (heap s) ->
    for_enumerate i examples
      (run_on_dataset_body B tracer (ChainFactory f) r verbose) locals s
      = (Ret locals', s') ->
    count_events is_factory_call (events s') =
      count_events is_factory_call (events s) + length examples * Z.to_nat r /\
    count_events is_tracer_setup (events s') =
      count_events is_tracer_setup (events s).
Proof.
  induction examples as [|e0 es IH]; intros i locals s locals' s' Hh H;
    simpl in H.
  - injection H as _ <-. simpl. lia.
  - apply bind_ret_inv in H as (acc & s1 & H1 & H).
    unfold run_on_dataset_body in H1.
    apply bind_ret_inv in H1 as (result & s2 & Hev & H1).
    apply bind_ret_inv in H1 as ([] & s3 & Hpr & H1).
    injection H1 as _ <-.
    pose proof (llm_or_chain_only_tracer_touched _ _ _ _ _ _ _ _ Hev) as [Hlen _].
    apply evaluator_factory_count in Hev as [Hf Hs]; [|done].
    assert (events s3 = events s2 \/ exists l, events s3 = events s2 ++ [EvPrint l])
      as Hprint.
    { destruct verbose; injection Hpr as <-; simpl; eauto. }
    assert (length (heap s3) = length (heap s2)) as Hlen3.
    { destruct verbose; by injection Hpr as <-. }
    assert (count_events is_factory_call (events s3) =
              count_events is_factory_call (events s2) /\
            count_events is_tracer_setup (events s3) =
              count_events is_tracer_setup (events s2)) as [Hf3 Hs3].
    { destruct Hprint as [-> | [l ->]]; [done|].
      rewrite !count_events_app. unfold count_events. simpl. lia. }
    apply IH in H as [Hf' Hs']; [|lia].
    rewrite Hf', Hs', Hf3, Hs3, Hf, Hs. simpl. lia.
Qed.

Lemma run_on_dataset_counts session examples f r verbose s m s' :
  run_on_dataset B session examples (ChainFactory f) r verbose s = (Ret m, s') ->
  count_events is_factory_call (events s') =
    count_events is_factory_call (events s) + length examples * Z.to_nat r /\
  count_events is_tracer_setup (events s') =
    count_events is_tracer_setup (events s) + 1.
Proof.
  unfold run_on_dataset. intros H.
  apply bind_ret_inv in H as (tracer & s1 & H1 & H).
  apply bind_ret_inv in H as (locals & s2 & H2 & H).
  assert (events s' = events s2) as ->.
  { destruct locals as [[e|] [res|]]; by injection H as _ <-. }
  unfold new_tracer in H1.
  destruct (tracer_setup session (world (log (EvTracerSetup session) s)))
    as [[d|e] w]; [|discriminate].
  injection H1 as <- <-.
  apply sequential_loop_counts in H2 as [-> ->].
  - simpl. rewrite !count_events_app.
    change (count_events is_factory_call [EvTracerSetup session]) with 0.
    change (count_events is_tracer_setup [EvTracerSetup session]) with 1.
    lia.
  - simpl. rewrite length_app. simpl. lia.
Qed.

Section WholeCallFacts.
Variable class_name_of_llm : LLM -> string.
Variable class_name_of_chain : Chain -> string.
Variable strftime_now : World -> string.
Variable read_dataset : string -> World -> res string * World.
Variable list_examples : string -> World -> res (list Example) * World.

Lemma outside_events {A} (call : World -> res A * World) s r s' :
  outside call s = (r, s') -> events s' = events s.
Proof.
  unfold outside. destruct (call (world s)) as [r0 w]. by intros [= _ <-].
Qed.

Lemma session_name_counts session_name f dataset_name s name s1 :
  _get_session_name class_name_of_llm class_name_of_chain strftime_now
    session_name (ChainFactory f) dataset_name s = (Ret name, s1) ->
  count_events is_factory_call (events s1) =
    count_events is_factory_call (events s)
    + match session_name with None => 1 | Some _ => 0 end /\
  count_events is_tracer_setup (events s1) =
    count_events is_tracer_setup (events s).
Proof.
  unfold _get_session_name. destruct session_name as [given|].
  - intros [= _ <-]. lia.
  - unfold bind, gets, call_factory.
    destruct (f (world s)) as [[c|e] w]; [|discriminate].
    intros [= _ <-]. simpl. rewrite !count_events_app.
    change (count_events is_factory_call [EvFactory (Ret c)]) with 1.
    change (count_events is_tracer_setup [EvFactory (Ret c)]) with 0.
    lia.
Qed.

(** X6.  A call of [run_on_dataset] over a factory target that returns has
    set up exactly one tracer, and has called the factory once per
    repetition of every example the service listed, plus once more, to
    name the session, when no session name was given:
    [len(examples) * num_repetitions] calls with a session name,
    [len(examples) * num_repetitions + 1] without. *)
Theorem sequential_batch_calls
    (dataset_name : string) (f : World -> res Chain * World) (r : Z)
    (session_name : option string) (verbose : bool)
    (s : St) (m : gmap string (list Slot)) (s' : St) :
  run_on_dataset_call class_name_of_llm class_name_of_chain strftime_now
    read_dataset list_examples B dataset_name (ChainFactory f) r session_name
    verbose s = (Ret m, s') ->
  exists name s1 dataset_id s2 examples s3,
    _get_session_name class_name_of_llm class_name_of_chain strftime_now
      session_name (ChainFactory f) dataset_name s = (Ret name, s1) /\
    outside (read_dataset dataset_name) s1 = (Ret dataset_id, s2) /\
    outside (list_examples dataset_id) s2 = (Ret examples, s3) /\
    run_on_dataset B name examples (ChainFactory f) r verbose s3 = (Ret m, s') /\
    count_events is_factory_call (events s') =
      count_events is_factory_call (events s)
      + length examples * Z.to_nat r
      + match session_name with None => 1 | Some _ => 0 end /\
    count_events is_tracer_setup (events s') =
      count_events is_tracer_setup (events s) + 1.
Proof.
  unfold run_on_dataset_call. intros H.
  apply bind_ret_inv in H as (name & s1 & Hname & H).
  apply bind_ret_inv in H as (dataset_id & s2 & Hread & H).
  apply bind_ret_inv in H as (examples & s3 & Hlist & H).
  exists name, s1, dataset_id, s2, examples, s3.
  split_and!; try done.
  - apply run_on_dataset_counts in H as [-> _].
    rewrite (outside_events _ _ _ _ Hlist), (outside_events _ _ _ _ Hread).
    apply session_name_counts in Hname as [-> _]. lia.
  - apply run_on_dataset_counts in H as [_ ->].
    rewrite (outside_events _ _ _ _ Hlist), (outside_events _ _ _ _ Hread).
    apply session_name_counts in Hname as [_ ->]. lia.
Qed.

End WholeCallFacts.

(** ** Sequential mode returns *)

Lemma sequential_loop_total tracer target r verbose :
  raises_only_Exception B target ->
  forall (examples : list Example) i (locals : Locals) s,
    exists locals' s',
      for_enumerate i examples (run_on_dataset_body B tracer target r verbose)
        locals s = (Ret locals', s') /\
      match examples with
      | [] => locals' = locals
      | e0 :: es =>
          exists result,
            locals' = (Some (List.last es e0), Some result) /\
            length result = Z.to_nat r
      end.
Proof.
  intros Ht. induction examples as [|e0 es IH]; intros i locals s; simpl.
  - by exists locals, s.
  - unfold bind at 1. unfold run_on_dataset_body at 1. unfold bind at 1.
    destruct (llm_or_chain_total Sync e0 tracer target r s Ht)
      as (result & s1 & Hev).
    unfold run_llm_or_chain. rewrite Hev.
    apply llm_or_chain_length in Hev.
    unfold bind at 1.
    assert (exists s2, (if verbose
                        then print (pretty (i + 1) +:+ " processed")
                        else ret tt) s1 = (Ret tt, s2)) as [s2 ->].
    { destruct verbose; eexists; reflexivity. }
    unfold ret at 1.
    destruct (IH (S i) (Some e0, Some result) s2) as (locals' & s' & -> & Hshape).
    exists locals', s'. split; [done|].
    destruct es as [|e1 es'].
    + subst. eauto.
    + destruct Hshape as (res' & -> & Hlen). exists res'.
      by rewrite (last_cons es').
Qed.

(** X5.  Sequential mode on a dataset that has examples, once its tracer is set
    up and with a target that raises nothing outside [Exception], returns
    normally; the map it returns holds one entry, under the identifier of
    the last example, with [num_repetitions] slots. *)
Theorem sequential_mode_returns_last_entry
    (session : string) (e0 : Example) (es : list Example) (target : Target)
    (r : Z) (verbose : bool) (s : St) (d : TracerData) (w : World) :
  tracer_setup session (world s) = (Ret d, w) ->
  raises_only_Exception B target ->
  exists result s',
    run_on_dataset B session (e0 :: es) target r verbose s =
      (Ret {[ id (List.last es e0) := result ]}, s') /\
    length result = Z.to_nat r.
Proof.
  intros Hsetup Ht.
  set (s1 := set_heap (fun hp => hp ++ [mkTracer session None d])
               (set_world w (log (EvTracerSetup session) s))).
  assert (Hnew : new_tracer session s = (Ret (length (heap s)), s1)).
  { unfold new_tracer. simpl. by rewrite Hsetup. }
  destruct (sequential_loop_total (length (heap s)) target r verbose Ht
              (e0 :: es) 0 (None, None) s1)
    as (locals' & s' & Hloop & result & -> & Hlen).
  exists result, s'. split; [|done].
  unfold run_on_dataset, bind. rewrite Hnew, Hloop.
  unfold ret. by rewrite insert_empty.
Qed.

(** ** The pool *)

Lemma fill_loop_new_tracer session k :
  forall acc s q s',
    for_range k (fun tracer_queue =>
                   bind (new_tracer session)
                     (fun t => ret (tracer_queue ++ [t]))) acc s = (Ret q, s') ->
    q = acc ++ seq (length (heap s)) k /\
    results s' = results s /\
    num_processed s' = num_processed s /\
    events s' = events s ++ replicate k (EvTracerSetup session) /\
    exists new,
      heap s' = heap s ++ new /\
      length new = k /\
      Forall (fun t => session_name t = session /\ example_id t = None) new.
Proof.
  induction k as [|k IH]; intros acc s q s' H; simpl in H.
  - injection H as <- <-. rewrite !app_nil_r.
    repeat split; try done. exists []. by rewrite app_nil_r.
  - apply bind_ret_inv in H as (acc' & s1 & H1 & H).
    apply bind_ret_inv in H1 as (t & s2 & Hnew & H1). injection H1 as <- <-.
    unfold new_tracer in Hnew.
    destruct (tracer_setup session (world (log (EvTracerSetup session) s)))
      as [[d|e] w]; [|discriminate].
    injection Hnew as <- <-.
    apply IH in H as (-> & Hr & Hn & He & new & Hh & Hlen & Hall).
    simpl in *. rewrite length_app in *. simpl in *.
    replace (length (heap s) + 1) with (S (length (heap s))) by lia.
    split; [by rewrite <- app_assoc|]. split; [done|]. split; [done|].
    split; [by rewrite He, <- app_assoc|].
    exists (mkTracer session None d :: new).
    split; [by rewrite Hh, <- app_assoc|]. split; [simpl; lia|].
    by constructor.
Qed.

Lemma gather_setup_new_tracer session n s p q s0 :
  gather_setup n (new_tracer session) s = (Ret (p, q), s0) ->
  p = Z.to_nat n /\
  q = seq (length (heap s)) (Z.to_nat n) /\
  events s0 = events s ++ replicate (Z.to_nat n) (EvTracerSetup session) /\
  num_processed s0 = 0%Z /\
  results s0 = results s /\
  exists new,
    heap s0 = heap s ++ new /\
    length new = Z.to_nat n /\
    Forall (fun t => session_name t = session /\ example_id t = None) new.
Proof.
  unfold gather_setup. intros H.
  apply bind_ret_inv in H as (sem & s1 & H1 & H).
  unfold Semaphore in H1. destruct (n <? 0)%Z; [discriminate|].
  injection H1 as <- <-.
  apply bind_ret_inv in H as ([] & s2 & H2 & H). injection H2 as <-.
  apply bind_ret_inv in H as (tq & s3 & H3 & H). injection H as <- <- <-.
  apply fill_loop_new_tracer in H3 as (-> & Hr & Hn & He & Hnew).
  simpl in *. done.
Qed.

(** X4.  A set-up that succeeds has built a pool of exactly [n] tracers for the
    [n] permits: the queue lists, in the order of their creation, [n] new
    tracers, each set up once under the session name; the tracers that
    existed before are not touched and the counter starts at zero. *)
Theorem pool_is_n_fresh_tracers
    (session : string) (n : Z) (s : St) (p : nat) (q : list Handle) (s0 : St) :
  gather_setup n (new_tracer session) s = (Ret (p, q), s0) ->
  p = Z.to_nat n /\
  q = seq (length (heap s)) (Z.to_nat n) /\
  events s0 = events s ++ replicate (Z.to_nat n) (EvTracerSetup session) /\
  num_processed s0 = 0%Z /\
  results s0 = results s /\
  exists new,
    heap s0 = heap s ++ new /\
    length new = Z.to_nat n /\
    Forall (fun t => session_name t = session) new.
Proof.
  intros H.
  apply gather_setup_new_tracer in H as (Hp & Hq & He & Hn & Hr & new & Hh & Hl & Hall).
  split_and!; try done. exists new. split_and!; try done.
  eapply Forall_impl; [exact Hall|]. by intros t [? _].
Qed.

Lemma held_elem ts : forall i h, ts !! i = Some (Holding h) -> h ∈ held ts.
Proof.
  induction ts as [|pc ts IH]; intros [|i] h H; simplify_eq/=.
  - change (held (Holding h :: ts)) with (h :: held ts). by left.
  - change (held (pc :: ts)) with (handle_of pc ++ held ts).
    apply elem_of_app. right. eapply IH, H.
Qed.

Lemma held_NoDup_index ts :
  NoDup (held ts) ->
  forall i j h,
    ts !! i = Some (Holding h) -> ts !! j = Some (Holding h) -> i = j.
Proof.
  induction ts as [|pc ts IH]; intros Hnd i j h Hi Hj; [done|].
  change (held (pc :: ts)) with (handle_of pc ++ held ts) in Hnd.
  destruct i as [|i], j as [|j]; simplify_eq/=.
  - done.
  - apply held_elem in Hj. apply NoDup_cons in Hnd as [Hnot _]. done.
  - apply held_elem in Hi. apply NoDup_cons in Hnd as [Hnot _]. done.
  - f_equal. apply NoDup_app in Hnd as (_ & _ & Hnd). eapply IH; eauto.
Qed.

(** X3.  In a concurrent run whose pool was built by the tracer initializer, no
    tracer is ever in two hands: in every reachable state the handles in
    the queue and the handles held are pairwise distinct, so two coroutines
    never hold the same tracer and a held tracer is not in the queue. *)
Theorem no_tracer_held_twice
    (funcs : list (Handle -> M unit)) (session : string) (n : Z)
    (s : St) (p : nat) (q : list Handle) (s0 : St) (sc : Sched) :
  gather_setup n (new_tracer session) s = (Ret (p, q), s0) ->
  steps funcs (start funcs p q s0) sc ->
  NoDup (tracer_queue sc ++ held (tasks sc)) /\
  (forall i j h,
     tasks sc !! i = Some (Holding h) -> tasks sc !! j = Some (Holding h) ->
     i = j) /\
  (forall i h, tasks sc !! i = Some (Holding h) -> h ∉ tracer_queue sc).
Proof.
  intros Hsetup Hsteps.
  destruct (gather_reachable_inv _ _ _ _ _ _ _ _ Hsetup Hsteps)
    as ((_ & Hperm & _) & _).
  apply gather_setup_new_tracer in Hsetup as (_ & Hq & _).
  assert (Hnd : NoDup (tracer_queue sc ++ held (tasks sc))).
  { rewrite Hperm, Hq. apply NoDup_seq. }
  split; [done|]. apply NoDup_app in Hnd as (_ & Hdisj & Hheld). split.
  - by apply held_NoDup_index.
  - intros i h Hi Hin. apply (Hdisj h Hin). eapply held_elem, Hi.
Qed.

(** ** Concurrent mode contains failures *)

Lemma process_example_returns target r verbose ex h s :
  raises_only_Exception B target ->
  exists s', process_example B target r verbose ex h s = (Ret tt, s').
Proof.
  intros Ht. unfold process_example. unfold bind at 1.
  destruct (llm_or_chain_total Async ex h target r s Ht) as (outs & s1 & Hev).
  unfold _arun_llm_or_chain. rewrite Hev.
  unfold bind, modify, gets, print. destruct verbose; eauto.
Qed.

Lemma arun_units_never_fail examples target r verbose p q s0 sc :
  raises_only_Exception B target ->
  steps (arun_funcs B examples target r verbose)
    (start (arun_funcs B examples target r verbose) p q s0) sc ->
  first_error sc = None /\
  forall i out,
    tasks sc !! i = Some (Releasing out) \/ tasks sc !! i = Some (Finished out) ->
    out = Ret tt.
Proof.
  intros Ht Hsteps.
  remember (start (arun_funcs B examples target r verbose) p q s0) as sc0 eqn:E0.
  induction Hsteps as [|sc1 sc2 sc3 _ IH Hstep].
  - subst. split; [done|]. simpl.
    intros i out [H|H]; apply lookup_replicate in H as [? _]; discriminate.
  - destruct (IH E0) as [IHfe IHout]. clear IH.
    destruct Hstep as [j p' q' ts fe st Hj | j p' h' q' ts fe st Hj
                      | j p' q' ts fe st h' f' out st' Hj Hf' Hrun
                      | j p' q' ts fe st out Hj]; simpl in *.
    + split; [done|]. intros i o Hpc.
      destruct (decide (j = i)) as [->|Hne].
      * rewrite list_lookup_insert_eq in Hpc by (eapply lookup_lt_Some, Hj).
        destruct Hpc; discriminate.
      * rewrite list_lookup_insert_ne in Hpc by done. eauto.
    + split; [done|]. intros i o Hpc.
      destruct (decide (j = i)) as [->|Hne].
      * rewrite list_lookup_insert_eq in Hpc by (eapply lookup_lt_Some, Hj).
        destruct Hpc; discriminate.
      * rewrite list_lookup_insert_ne in Hpc by done. eauto.
    + split; [done|]. intros i o Hpc.
      destruct (decide (j = i)) as [->|Hne].
      * rewrite list_lookup_insert_eq in Hpc by (eapply lookup_lt_Some, Hj).
        destruct Hpc as [Hpc|Hpc]; [|discriminate]. injection Hpc as <-.
        unfold arun_funcs in Hf'. rewrite list_lookup_fmap in Hf'.
        destruct (examples !! i) as [exi|]; [|discriminate].
        injection Hf' as <-.
        destruct (process_example_returns target r verbose exi h' st Ht)
          as [st'' Hret].
        rewrite Hret in Hrun. by injection Hrun as <- _.
      * rewrite list_lookup_insert_ne in Hpc by done. eauto.
    + assert (out = Ret tt) as -> by (eapply IHout; eauto).
      split; [by destruct fe|]. intros i o Hpc.
      destruct (decide (j = i)) as [->|Hne].
      * rewrite list_lookup_insert_eq in Hpc by (eapply lookup_lt_Some, Hj).
        destruct Hpc as [Hpc|Hpc]; [discriminate|]. by injection Hpc as <-.
      * rewrite list_lookup_insert_ne in Hpc by done. eauto.
Qed.

(** X2.  With a target that raises nothing outside [Exception], a concurrent
    batch whose set-up succeeded cannot end by raising: no unit of work
    fails, so [gather] has nothing to re-raise; and for a positive
    concurrency level the batch does have a run that returns the map. *)
Theorem concurrent_batch_contains_failures
    (session : string) (examples : list Example) (target : Target)
    (cl r : Z) (verbose : bool) (s : St) (p : nat) (q : list Handle) (s0 : St) :
  raises_only_Exception B target ->
  gather_setup cl (new_tracer session) (set_results (fun _ => ∅) s)
    = (Ret (p, q), s0) ->
  (forall out s',
     arun_on_dataset B session examples target cl r verbose s out s' ->
     exists m, out = Ret m) /\
  ((0 < cl)%Z ->
   exists m s',
     arun_on_dataset B session examples target cl r verbose s (Ret m) s').
Proof.
  intros Ht Hsetup. split.
  - intros out s' Hrun. destruct Hrun as [s1 Hg | e s1 Hg]; [eauto|].
    exfalso. inversion Hg as
        [e3 s3 Hs | | p' q' s3 sc e3 Hs Hst Hfe]; subst;
      rewrite Hsetup in Hs; [discriminate|]. injection Hs as <- <- <-.
    destruct (arun_units_never_fail _ _ _ _ _ _ _ _ Ht Hst) as [Hnone _].
    congruence.
  - intros Hcl.
    pose proof (gather_setup_ok _ _ _ _ _ _ Hsetup) as (_ & -> & Hq).
    destruct (gather_completes
                (arun_funcs B examples target r verbose) (Z.to_nat cl) q
                ltac:(lia) Hq
                (work_left (start (arun_funcs B examples target r verbose)
                              (Z.to_nat cl) q s0))
                (start (arun_funcs B examples target r verbose)
                   (Z.to_nat cl) q s0) ltac:(lia)
                (gather_inv_start _ _ _ _ Hq)) as (sc & Hsteps & Hfin).
    destruct (arun_units_never_fail _ _ _ _ _ _ _ _ Ht Hsteps) as [_ Hok].
    exists (results (store sc)), (store sc).
    apply arun_returns. eapply gather_returns; [exact Hsetup | exact Hsteps |].
    apply forallb_forall. intros pc Hin.
    rewrite forallb_forall in Hfin. specialize (Hfin pc Hin).
    apply list_elem_of_In, list_elem_of_lookup in Hin as [i Hi].
    destruct pc as [| | | |out]; try discriminate.
    by rewrite (Hok i out (or_intror Hi)).
Qed.

(** ** The progress counter and the finished map *)

Lemma process_example_counter target r verbose ex h s out s' :
  process_example B target r verbose ex h s = (out, s') ->
  num_processed s' =
    (num_processed s + match out with Ret _ => 1 | Raise _ => 0 end)%Z.
Proof.
  unfold process_example. unfold bind at 1.
  destruct (_arun_llm_or_chain B ex h target r s) as [[result|e] s1] eqn:E;
    pose proof (llm_or_chain_results _ _ _ _ _ _ _ _ _ E) as [_ Hn].
  - unfold bind, modify, gets, print.
    destruct verbose; intros [= <- <-]; simpl; lia.
  - intros [= <- <-]. lia.
Qed.

Lemma arun_counter examples target r verbose p q s0 sc :
  num_processed s0 = 0%Z ->
  steps (arun_funcs B examples target r verbose)
    (start (arun_funcs B examples target r verbose) p q s0) sc ->
  num_processed (store sc) = Z.of_nat (count_pc returned (tasks sc)).
Proof.
  intros Hzero Hsteps.
  remember (start (arun_funcs B examples target r verbose) p q s0) as sc0 eqn:E0.
  induction Hsteps as [|sc1 sc2 sc3 _ IH Hstep].
  - subst. simpl. by rewrite count_pc_replicate_Pending.
  - specialize (IH E0).
    destruct Hstep as [j p' q' ts fe st Hj | j p' h' q' ts fe st Hj
                      | j p' q' ts fe st h' f' out st' Hj Hf' Hrun
                      | j p' q' ts fe st out Hj]; simpl in *.
    + pose proof (count_pc_insert returned ts j _ Entered Hj). simpl in *. lia.
    + pose proof (count_pc_insert returned ts j _ (Holding h') Hj). simpl in *. lia.
    + unfold arun_funcs in Hf'. rewrite list_lookup_fmap in Hf'.
      destruct (examples !! j) as [exj|]; [|discriminate]. injection Hf' as <-.
      apply process_example_counter in Hrun.
      pose proof (count_pc_insert returned ts j _ (Releasing out) Hj).
      destruct out; simpl in *; lia.
    + pose proof (count_pc_insert returned ts j _ (Finished out) Hj).
      destruct out; simpl in *; lia.
Qed.

Lemma count_returned_finished_ok ts :
  forallb finished_ok ts = true -> count_pc returned ts = length ts.
Proof.
  induction ts as [|pc ts IH]; [done|]. simpl.
  intros [Hpc Hts]%andb_prop. rewrite count_pc_cons, (IH Hts).
  by destruct pc as [| | | |[]].
Qed.

(** X1.  When [arun_on_dataset] returns, the map is complete and the counter
    agrees with it: the keys are exactly the identifiers of the examples,
    every entry has [num_repetitions] slots, and
    [job_state["num_processed"]] has been incremented once per example. *)
Theorem concurrent_result_map_complete
    (session : string) (examples : list Example) (target : Target)
    (cl r : Z) (verbose : bool) (s : St)
    (m : gmap string (list Slot)) (s' : St) :
  arun_on_dataset B session examples target cl r verbose s (Ret m) s' ->
  dom m = list_to_set (id <$> examples) /\
  (forall ex, ex ∈ examples ->
     exists result, m !! id ex = Some result /\ length result = Z.to_nat r) /\
  num_processed s' = Z.of_nat (length examples).
Proof.
  intros Hrun.
  destruct (arun_on_dataset_returns_every_example B _ _ _ _ _ _ _ _ _ Hrun)
    as [Hdom Hall].
  split; [done | split; [done|]].
  inversion Hrun as [s1 Hg Hm Hs|]; subst. clear Hrun.
  inversion Hg as [| p q s0 sc Hsetup Hsteps Hfin Hout Hsc |]; subst. clear Hg.
  destruct (gather_reachable_inv _ _ _ _ _ _ _ _ Hsetup Hsteps)
    as ((_ & _ & Hlen) & _).
  apply gather_setup_new_tracer in Hsetup as (_ & _ & _ & Hzero & _).
  rewrite (arun_counter _ _ _ _ _ _ _ _ Hzero Hsteps).
  rewrite (count_returned_finished_ok _ Hfin), Hlen.
  unfold arun_funcs. by rewrite length_map.
Qed.

(** ** [_get_session_name] *)

Section SessionNameFacts.
Variable class_name_of_llm : LLM -> string.
Variable class_name_of_chain : Chain -> string.
Variable strftime_now : World -> string.

(** X10.  [_get_session_name] never touches a tracer, the result map or the
    counter.  With a session name given it returns that name and does
    nothing at all.  Without one, a model target is only asked for its
    class name, but a factory target is called, once, to build a chain
    whose only use is its class name; the name returned is then
    [dataset-class-time].  The call raises exactly when that factory call
    raises: if the factory raises the call raises the factory's own error,
    which nothing here catches, and it raises in no other case. *)
Theorem session_name_costs_one_factory_call
    (session_name : option string) (target : Target) (dataset_name : string)
    (s : St) (out : res string) (s' : St) :
  _get_session_name class_name_of_llm class_name_of_chain strftime_now
    session_name target dataset_name s = (out, s') ->
  heap s' = heap s /\ results s' = results s /\
  num_processed s' = num_processed s /\
  count_events is_factory_call (events s') =
    count_events is_factory_call (events s) +
    match session_name, target with
    | None, ChainFactory _ => 1
    | _, _ => 0
    end /\
  (forall name, session_name = Some name -> out = Ret name /\ s' = s) /\
  (forall e, out = Raise e ->
     exists factory w,
       session_name = None /\ target = ChainFactory factory /\
       factory (world s) = (Raise e, w)) /\
  (forall factory e w,
     session_name = None -> target = ChainFactory factory ->
     factory (world s) = (Raise e, w) ->
     out = Raise e /\ events s' = events s ++ [EvFactory (Raise e)]) /\
  (forall factory c w,
     session_name = None -> target = ChainFactory factory ->
     factory (world s) = (Ret c, w) ->
     out = Ret (dataset_name +:+ "-" +:+ class_name_of_chain c +:+ "-"
                  +:+ strftime_now (world s)) /\
     events s' = events s ++ [EvFactory (Ret c)]) /\
  (forall llm,
     session_name = None -> target = DirectModel llm ->
     out = Ret (dataset_name +:+ "-" +:+ class_name_of_llm llm +:+ "-"
                  +:+ strftime_now (world s)) /\
     s' = s).
Proof.
  unfold _get_session_name.
  destruct session_name as [name|].
  - intros [= <- <-].
    split_and!; [done | done | done | lia | by intros ? [= <-] | by intros ? [=]
                | by intros ? ? ? [=] | by intros ? ? ? [=] | by intros ? [=]].
  - unfold bind at 1. unfold gets at 1. unfold bind at 1.
    destruct target as [llm|factory].
    + intros [= <- <-].
      split_and!; [done | done | done | lia | by intros ? [=] | by intros ? [=]
                  | by intros ? ? ? _ [=] | by intros ? ? ? _ [=]
                  | by intros ? _ [= <-]].
    + unfold bind, call_factory.
      destruct (factory (world s)) as [[c|e] w] eqn:E; intros [= <- <-]; simpl;
        rewrite count_events_app;
        change (count_events is_factory_call [EvFactory _]) with 1.
      * split_and!; [done | done | done | done | by intros ? [=] | by intros ? [=]
                    | | | by intros ? _ [=]].
        -- intros f0 e0 w0 _ [= <-] He0. congruence.
        -- intros f0 c0 w0 _ [= <-] Hc0. rewrite E in Hc0.
           by injection Hc0 as <- <-.
      * split_and!; [done | done | done | done | by intros ? [=] | |
                    | | by intros ? _ [=]].
        -- intros e0 [= <-]. eauto.
        -- intros f0 e0 w0 _ [= <-] He0. rewrite E in He0.
           by injection He0 as <- <-.
        -- intros f0 c0 w0 _ [= <-] Hc0. congruence.
Qed.

End SessionNameFacts.

End MoreFacts.

(** * Properties of the client's construction *)

Section ClientFacts.
Context `{NW : Network}.

Lemma split_on_nonempty sep s : split_on sep s <> [].
Proof.
  destruct s as [|c rest]; simpl; [done|].
  destruct (Ascii.eqb c sep); [done|]. by destruct (split_on sep rest).
Qed.

Lemma split_on_before_sep sep host rest :
  split_on sep host = [host] ->
  exists pieces,
    split_on sep (host +:+ String sep rest) = host :: pieces.
Proof.
  revert rest. induction host as [|c host IH]; intros rest H; simpl in *.
  - rewrite Ascii.eqb_refl. eauto.
  - destruct (Ascii.eqb c sep); [discriminate|].
    destruct (split_on sep host) as [|piece pieces] eqn:E.
    + by destruct (split_on_nonempty sep host).
    + injection H as -> ->.
      destruct (IH rest eq_refl) as [pieces' Hp].
      change (String.append host (String sep rest))
        with (host +:+ String sep rest).
      rewrite Hp. eauto.
Qed.

(** X14.  A port in the URL does not change the verdict of [_is_localhost]: when
    the network location is [host:port] and [host] itself has no colon,
    the name looked up is [host], as for the same location without a
    port. *)
Theorem is_localhost_ignores_port
    (url_with_port url_plain host port : string) :
  split_on ":"%char host = [host] ->
  urlsplit_netloc url_with_port = Ret (host +:+ String ":"%char port) ->
  urlsplit_netloc url_plain = Ret host ->
  _is_localhost url_with_port = _is_localhost url_plain.
Proof.
  intros Hhost Hwith Hplain. unfold _is_localhost.
  rewrite Hwith, Hplain, Hhost.
  destruct (split_on_before_sep ":"%char host port Hhost) as [pieces ->].
  reflexivity.
Qed.

Lemma retry_requests {A} (attempt : Net -> res A * Net) req :
  (forall n out n', attempt n = (out, n') -> sent n' = sent n ++ [req]) ->
  forall more n out n',
    retry more attempt n = (out, n') ->
    exists k,
      1 <= k <= S more /\
      sent n' = sent n ++ replicate k req /\
      (forall e, out = Raise e -> is_Exception e = true ->
         k = S more /\
         exists last, e = RetryError last /\ is_Exception last = true) /\
      (forall a, out = Ret a ->
         exists n0, attempt n0 = (Ret a, n') /\
                    sent n0 = sent n ++ replicate (k - 1) req).
Proof.
  intros Hreq. induction more as [|more IH]; intros n out n' H; simpl in H.
  - destruct (attempt n) as [[a|e] n1] eqn:E.
    + injection H as <- <-. exists 1. split; [lia|].
      split; [by apply Hreq in E|]. split; [by intros ? [=]|].
      intros a0 [= <-]. exists n. simpl. by rewrite app_nil_r.
    + pose proof (Hreq _ _ _ E) as Hs.
      destruct (is_Exception e) eqn:He; injection H as <- <-;
        exists 1; (split; [lia|]); (split; [done|]).
      * split; [|by intros ? [=]]. intros e0 [= <-] _. eauto.
      * split; [|by intros ? [=]]. intros e0 [= <-] He0. congruence.
  - destruct (attempt n) as [[a|e] n1] eqn:E.
    + injection H as <- <-. exists 1. split; [lia|].
      split; [by apply Hreq in E|]. split; [by intros ? [=]|].
      intros a0 [= <-]. exists n. simpl. by rewrite app_nil_r.
    + pose proof (Hreq _ _ _ E) as Hs.
      destruct (is_Exception e) eqn:He.
      * apply IH in H as (k & Hk & Hsent & Hraise & Hret).
        exists (S k). split; [lia|].
        split; [by rewrite Hsent, Hs, <- app_assoc|]. split.
        -- intros e0 He0 Hex. destruct (Hraise e0 He0 Hex) as [-> Hlast].
           split; [lia | done].
        -- intros a Ha. destruct (Hret a Ha) as (n0 & Hn0 & Hs0).
           exists n0. split; [done|].
           replace (S k - 1) with (S (k - 1)) by lia.
           by rewrite Hs0, Hs, <- app_assoc.
      * injection H as <- <-. exists 1. split; [lia|]. split; [done|].
        split; [|by intros ? [=]]. intros e0 [= <-] He0. congruence.
Qed.

Lemma attempt_sends_one_request url key n out n' :
  get_seeded_tenant_id_attempt url key n = (out, n') ->
  sent n' = sent n ++ [(url +:+ "/tenants", tenant_headers key)].
Proof.
  unfold get_seeded_tenant_id_attempt.
  destruct (requests_get _ _ (remote n)) as [[response|e] rm];
    [|by intros [= <- <-]].
  destruct (raise_for_status_with_text response) as [u|e].
  - destruct (response_json response) as [[|first rest]|e];
      [by intros [= <- <-] | | by intros [= <- <-]].
    destruct (first !! "id"); by intros [= <- <-].
  - destruct (is_Exception e); by intros [= <- <-].
Qed.

Lemma seeded_tenant_requests url key n out n' :
  _get_seeded_tenant_id url key n = (out, n') ->
  exists k,
    1 <= k <= 3 /\
    sent n' = sent n ++ replicate k (url +:+ "/tenants", tenant_headers key) /\
    (forall e, out = Raise e -> is_Exception e = true ->
       k = 3 /\ exists last, e = RetryError last /\ is_Exception last = true) /\
    (forall tenant, out = Ret tenant ->
       exists n0, get_seeded_tenant_id_attempt url key n0 = (Ret tenant, n')).
Proof.
  intros H. unfold _get_seeded_tenant_id in H.
  apply (retry_requests _ _ (attempt_sends_one_request url key)) in H
    as (k & Hk & Hsent & Hraise & Hret).
  exists k. split; [lia|]. split; [done|]. split; [done|].
  intros tenant Ht. destruct (Hret tenant Ht) as (n0 & Hn0 & _). eauto.
Qed.

(** X11.  [_get_seeded_tenant_id] sends at least one and at most three GET
    requests, all to [api_url/tenants] and all with the same headers, which
    carry [x-api-key] exactly when the key is a non-empty string.  A tenant
    it returns is what one attempt returned.  None of the [ValueError]s
    raised inside ever reaches the caller: an [Exception] that comes out is
    the [RetryError] of the retry wrapper, after exactly three requests. *)
Theorem seeded_tenant_lookup_attempts
    (url : string) (key : option string) (n : Net)
    (out : res string) (n' : Net) :
  _get_seeded_tenant_id url key n = (out, n') ->
  tenant_headers key !! "x-api-key" = (if truthy key then key else None) /\
  exists k,
    1 <= k <= 3 /\
    sent n' = sent n ++ replicate k (url +:+ "/tenants", tenant_headers key) /\
    (forall e, out = Raise e -> is_Exception e = true ->
       k = 3 /\ exists last, e = RetryError last /\ is_Exception last = true) /\
    (forall tenant, out = Ret tenant ->
       exists n0, get_seeded_tenant_id_attempt url key n0 = (Ret tenant, n')).
Proof.
  intros H. split.
  - unfold tenant_headers. destruct key as [text|]; [|done].
    destruct (truthy (Some text)); [apply lookup_singleton_eq | done].
  - by apply seeded_tenant_requests.
Qed.

Lemma is_localhost_false_cases url full :
  urlsplit_netloc url = Ret full ->
  (exists ip, gethostbyname (hd EmptyString (split_on ":"%char full)) = Ret ip /\
              is_local_ip ip = false) \/
  (exists e, gethostbyname (hd EmptyString (split_on ":"%char full)) = Raise e /\
             is_gaierror e = true) ->
  _is_localhost url = Ret false.
Proof.
  intros Hfull Hcase. unfold _is_localhost. rewrite Hfull.
  destruct Hcase as [(ip & -> & Hip) | (e & -> & He)]; [by rewrite Hip|].
  by rewrite He.
Qed.

(** X12.  A client whose [api_url] (the given string, or the default when
    the key is absent) has a host that resolves to a non-local address, or
    does not resolve at all ([socket.gaierror]), cannot be built without an
    API key: the validator raises [ValueError] and no request is sent. *)
Theorem hosted_or_unresolvable_needs_api_key
    (values : Values) (url full : string) (n : Net) :
  get_api_url values = Some url ->
  urlsplit_netloc url = Ret full ->
  (exists ip, gethostbyname (hd EmptyString (split_on ":"%char full)) = Ret ip /\
              is_local_ip ip = false) \/
  (exists e, gethostbyname (hd EmptyString (split_on ":"%char full)) = Raise e /\
             is_gaierror e = true) ->
  truthy (api_key values) = false ->
  validate_api_key_if_hosted values n =
    (Raise (mkExn ValueError
              "API key must be provided when using hosted LangChain+ API"), n).
Proof.
  intros Hurl Hfull Hcase Hkey. unfold validate_api_key_if_hosted.
  by rewrite Hurl, (is_localhost_false_cases _ _ Hfull Hcase), Hkey.
Qed.


End ClientFacts.

(** * The properties on the concrete runtime *)

(** C1, sequential mode.  On the dataset [A, B] with an always-succeeding
    factory target, [run_on_dataset] returns a map with the single key [B]:
    its size is 1, not 2, and [A] is missing.  The write to [results] stands
    after the loop, not inside it. *)
Theorem run_on_dataset_keeps_only_last_example :
  exists m s',
    run_on_dataset demo_ok "session" [example_A; example_B] demo_factory 2 false
      demo_store = (Ret m, s') /\
    m = {[ "B" := [Output "ok"; Output "ok"] ]} /\
    size m = 1 /\
    length [example_A; example_B] = 2 /\
    m !! "A" = None.
Proof.
  eexists _, _. split; [vm_compute; reflexivity|].
  split; [reflexivity|]. split; [|split]; reflexivity.
Qed.

Lemma demo_boom_raises_only_Exception :
  raises_only_Exception demo_boom demo_factory.
Proof.
  repeat split.
  - intros m llm a t w e t' w' [= <- _ _]. reflexivity.
  - intros m c i t w e t' w' [= <- _ _]. reflexivity.
  - intros v e. simpl. destruct (String.eqb v "malformed"); [|discriminate].
    intros [= <-]. reflexivity.
  - intros w e w' H. discriminate.
Qed.



Lemma evaluator_restores_example_id_witness :
  exists t',
    heap (snd (run_llm_or_chain demo_boom example_A 0 demo_factory 2
                 demo_store_tagged)) !! 0 = Some t' /\
    example_id t' = Some "enclosing".
Proof.
  apply (evaluator_restores_example_id demo_boom Sync example_A 0 demo_factory 2
           demo_store_tagged (@mkTracer demo_runtime "outer" (Some "enclosing") tt)
           [ErrorDict "boom"; ErrorDict "boom"]).
  - reflexivity.
  - vm_compute. reflexivity.
Defined.


Lemma direct_model_routes_by_model_type_witness :
  invoke_target demo_ok Sync example_A 0 (DirectModel TextLLM) demo_store_tagged =
    generate demo_ok Sync TextLLM (PromptArg "hello") 0 demo_store_tagged /\
  invoke_target demo_ok Async example_C 0 (DirectModel ChatLLM) demo_store_tagged =
    generate demo_ok Async ChatLLM (MessagesArg ["hi"]) 0 demo_store_tagged /\
  (exists msg,
     (forall s, invoke_target demo_ok Sync example_A 0 (DirectModel ChatLLM) s =
                (Raise (mkExn ValueError msg), s)) /\
     forall r s, exists s',
       llm_or_chain demo_ok Sync example_A 0 (DirectModel ChatLLM) r s =
         (Ret (replicate (Z.to_nat r) (ErrorDict msg)), s') /\
       events s' =
         events s ++
         replicate (Z.to_nat r)
           (EvWarning (warning_text example_A (mkExn ValueError msg)))) /\
  ((forall s, invoke_target demo_ok Sync example_D 0 (DirectModel ChatLLM) s =
              (Raise (mkExn (ExceptionSubclass "KeyError") "'type'"), s)) /\
   forall r s, exists s',
     llm_or_chain demo_ok Sync example_D 0 (DirectModel ChatLLM) r s =
       (Ret (replicate (Z.to_nat r) (ErrorDict "'type'")), s') /\
     events s' =
       events s ++
       replicate (Z.to_nat r)
         (EvWarning (warning_text example_D
                       (mkExn (ExceptionSubclass "KeyError") "'type'")))).
Proof.
  destruct (direct_model_routes_by_model_type demo_ok Sync example_A 0 TextLLM)
    as (H1 & _).
  destruct (direct_model_routes_by_model_type demo_ok Async example_C 0 ChatLLM)
    as (_ & H2 & _).
  destruct (direct_model_routes_by_model_type demo_ok Sync example_A 0 ChatLLM)
    as (_ & _ & H3 & _).
  destruct (direct_model_routes_by_model_type demo_ok Sync example_D 0 ChatLLM)
    as (_ & _ & _ & H4 & _).
  split_and!.
  - apply H1; [reflexivity | vm_compute; reflexivity].
  - apply (H2 eq_refl eq_refl "hi" ["hi"]); vm_compute; reflexivity.
  - apply H3. right; left. split_and!; [reflexivity | reflexivity |].
    vm_compute. reflexivity.
  - apply (H4 eq_refl eq_refl "malformed"
             (mkExn (ExceptionSubclass "KeyError") "'type'"));
      [vm_compute; reflexivity | reflexivity | reflexivity].
  - apply (H4 eq_refl eq_refl "malformed"
             (mkExn (ExceptionSubclass "KeyError") "'type'"));
      [vm_compute; reflexivity | reflexivity | reflexivity].
Defined.

(** C9 as stated fails: the payload of [example_A] has the single free-text
    field ["prompt"], but with a chat model as target no text-completion
    call is made; the repetition records a failure marker.  Likewise the
    payload of [example_C] has a message list, and with a text model no
    chat call is made. *)
Lemma payload_kind_does_not_choose_the_route :
  (fst (run_llm_or_chain demo_ok example_A 0 (DirectModel ChatLLM) 1
          demo_store_tagged)
     = Ret [ErrorDict "Chat Model Run must contain 'messages' key. Got {...}"] /\
   List.filter is_generate
     (events (snd (run_llm_or_chain demo_ok example_A 0 (DirectModel ChatLLM) 1
                     demo_store_tagged))) = []) /\
  (fst (_arun_llm_or_chain demo_ok example_C 0 (DirectModel TextLLM) 1
          demo_store_tagged)
     = Ret [ErrorDict "LLM Run requires 'prompt' input. Got {...}"] /\
   List.filter is_generate
     (events (snd (_arun_llm_or_chain demo_ok example_C 0 (DirectModel TextLLM) 1
                     demo_store_tagged))) = []).
Proof. repeat split; vm_compute; reflexivity. Qed.

Lemma run_on_dataset_no_examples_witness :
  exists e s',
    run_on_dataset demo_ok "session" [] demo_factory 2 true demo_store
      = (Raise e, s') /\
    exn_cls e = UnboundLocalError /\
    events s' = events demo_store ++ [EvTracerSetup "session"] /\
    length (heap s') = S (length (heap demo_store)).
Proof.
  apply (proj2 (run_on_dataset_no_examples demo_ok "session" demo_factory 2 true
                  demo_store) tt 0).
  reflexivity.
Defined.

Lemma demo_sched_holding_reachable :
  gather_setup 1 (new_tracer "session") demo_store = (Ret (1, [0]), demo_pool_store) /\
  steps demo_funcs (start demo_funcs 1 [0] demo_pool_store) demo_sched_holding.
Proof.
  split; [reflexivity|].
  eapply steps_step; [eapply steps_step; [apply steps_refl|]|].
  - exact (step_acquire demo_funcs 0 0 [0] [Pending; Pending] None demo_pool_store
             eq_refl).
  - exact (step_get demo_funcs 0 0 0 [] [Entered; Pending] None demo_pool_store
             eq_refl).
Defined.

Lemma at_most_n_tracers_checked_out_witness :
  (Z.of_nat (count_pc in_gate (tasks demo_sched_holding)) <= 1)%Z /\
  (Z.of_nat (count_pc is_holding (tasks demo_sched_holding)) <= 1)%Z /\
  length (held (tasks demo_sched_holding)) =
    count_pc is_holding (tasks demo_sched_holding).
Proof.
  apply (at_most_n_tracers_checked_out demo_funcs 1 (new_tracer "session")
           demo_store 1 [0] demo_pool_store demo_sched_holding).
  - exact (proj1 demo_sched_holding_reachable).
  - exact (proj2 demo_sched_holding_reachable).
Defined.

Lemma tracer_checked_in_on_every_exit_witness :
  tracer_queue demo_sched_holding ++ held (tasks demo_sched_holding) ≡ₚ [0] /\
  length [0] = Z.to_nat 1 /\
  ((0 < 1)%Z ->
   exists sc', steps demo_funcs demo_sched_holding sc' /\
     forallb is_finished (tasks sc') = true /\
     tracer_queue sc' ≡ₚ [0]).
Proof.
  apply (tracer_checked_in_on_every_exit demo_funcs 1 (new_tracer "session")
           demo_store 1 [0] demo_pool_store demo_sched_holding).
  - exact (proj1 demo_sched_holding_reachable).
  - exact (proj2 demo_sched_holding_reachable).
Defined.

Lemma pool_failure_aborts_before_any_work_witness :
  arun_on_dataset demo_ok "unreachable" [example_A; example_B] demo_factory 2 1
    false demo_store (Raise demo_connection_error) demo_failed_store /\
  (forall out s'',
     arun_on_dataset demo_ok "unreachable" [example_A; example_B] demo_factory 2 1
       false demo_store out s'' ->
     out = Raise demo_connection_error /\ s'' = demo_failed_store) /\
  results demo_failed_store = ∅ /\
  num_processed demo_failed_store = 0%Z /\
  exists k,
    events demo_failed_store =
    events demo_store ++ replicate k (EvTracerSetup "unreachable").
Proof.
  apply (pool_failure_aborts_before_any_work demo_ok "unreachable"
           [example_A; example_B] demo_factory 2 1 false demo_store
           demo_connection_error demo_failed_store).
  reflexivity.
Defined.



(** A unit whose evaluation is interrupted leaves its [try] block through
    [finally]: the tracer is back in the queue, the permit is back in the
    semaphore, and [gather] has the exception to re-raise. *)
Example tracer_back_after_interrupted_unit :
  let funcs := arun_funcs demo_interrupt [example_A] demo_factory 1 false in
  let e := mkExn (BaseExceptionOnly "KeyboardInterrupt") "" in
  exists sc,
    steps funcs (start funcs 1 [0] demo_pool_store) sc /\
    tasks sc = [Finished (Raise e)] /\
    tracer_queue sc = [0] /\
    semaphore sc = 1 /\
    first_error sc = Some e /\
    results (store sc) = ∅.
Proof.
  intros funcs e. eexists. split.
  - eapply steps_step; [eapply steps_step; [eapply steps_step;
      [eapply steps_step; [apply steps_refl|]|]|]|].
    + exact (step_acquire funcs 0 0 [0] [Pending] None demo_pool_store eq_refl).
    + exact (step_get funcs 0 0 0 [] [Entered] None demo_pool_store eq_refl).
    + eapply (step_run funcs 0 0 [] [Holding 0] None demo_pool_store 0);
        [reflexivity | reflexivity | vm_compute; reflexivity].
    + eapply (step_release funcs 0 0 [0] [Releasing (Raise e)] None). reflexivity.
  - split; [reflexivity|]. split; [reflexivity|]. split; [reflexivity|].
    split; reflexivity.
Qed.

(** The scenario of the dataset [A, B] run concurrently with one permit and
    an always-succeeding target: both entries are there. *)
Example concurrent_run_records_both_examples :
  exists sc,
    steps demo_funcs (start demo_funcs 1 [0] demo_pool_store) sc /\
    forallb finished_ok (tasks sc) = true /\
    results (store sc) = {[ "A" := [Output "ok"]; "B" := [Output "ok"] ]} /\
    tracer_queue sc = [0].
Proof.
  eexists. split.
  - eapply steps_step; [eapply steps_step; [eapply steps_step; [eapply steps_step;
      [eapply steps_step; [eapply steps_step; [eapply steps_step;
        [eapply steps_step; [apply steps_refl|]|]|]|]|]|]|]|].
    + exact (step_acquire demo_funcs 1 0 [0] [Pending; Pending] None
               demo_pool_store eq_refl).
    + exact (step_get demo_funcs 1 0 0 [] [Pending; Entered] None
               demo_pool_store eq_refl).
    + eapply (step_run demo_funcs 1 0 [] [Pending; Holding 0] None
                demo_pool_store 0);
        [reflexivity | reflexivity | vm_compute; reflexivity].
    + eapply (step_release demo_funcs 1 0 [0] [Pending; Releasing (Ret tt)] None).
      reflexivity.
    + eapply (step_acquire demo_funcs 0 0 [0] [Pending; Finished (Ret tt)] None).
      reflexivity.
    + eapply (step_get demo_funcs 0 0 0 [] [Entered; Finished (Ret tt)] None).
      reflexivity.
    + eapply (step_run demo_funcs 0 0 [] [Holding 0; Finished (Ret tt)] None _ 0);
        [reflexivity | reflexivity | vm_compute; reflexivity].
    + eapply (step_release demo_funcs 0 0 [0]
                [Releasing (Ret tt); Finished (Ret tt)] None).
      reflexivity.
  - split; [reflexivity|]. split; [vm_compute; reflexivity | reflexivity].
Qed.

(** * The further properties on the concrete runtime *)

Lemma demo_run_to_done :
  steps demo_funcs (start demo_funcs 1 [0] demo_pool_store) demo_sched_done.
Proof.
  eapply steps_step; [eapply steps_step; [eapply steps_step; [eapply steps_step;
    [eapply steps_step; [eapply steps_step; [eapply steps_step;
      [eapply steps_step; [apply steps_refl|]|]|]|]|]|]|]|].
  - exact (step_acquire demo_funcs 1 0 [0] [Pending; Pending] None
             demo_pool_store eq_refl).
  - exact (step_get demo_funcs 1 0 0 [] [Pending; Entered] None
             demo_pool_store eq_refl).
  - eapply (step_run demo_funcs 1 0 [] [Pending; Holding 0] None
              demo_pool_store 0 _ (Ret tt) demo_store_after_B);
      [reflexivity | reflexivity | vm_compute; reflexivity].
  - eapply (step_release demo_funcs 1 0 [0] [Pending; Releasing (Ret tt)] None
              demo_store_after_B (Ret tt)).
    reflexivity.
  - eapply (step_acquire demo_funcs 0 0 [0] [Pending; Finished (Ret tt)] None
              demo_store_after_B).
    reflexivity.
  - eapply (step_get demo_funcs 0 0 0 [] [Entered; Finished (Ret tt)] None
              demo_store_after_B).
    reflexivity.
  - eapply (step_run demo_funcs 0 0 [] [Holding 0; Finished (Ret tt)] None
              demo_store_after_B 0 _ (Ret tt) demo_done_store);
      [reflexivity | reflexivity | vm_compute; reflexivity].
  - eapply (step_release demo_funcs 0 0 [0]
              [Releasing (Ret tt); Finished (Ret tt)] None demo_done_store (Ret tt)).
    reflexivity.
Defined.

Lemma demo_arun_returns :
  arun_on_dataset demo_ok "session" [example_A; example_B] demo_factory 1 1 false
    demo_store (Ret (results demo_done_store)) demo_done_store.
Proof.
  refine (arun_returns demo_ok "session" [example_A; example_B] demo_factory 1 1
            false demo_store demo_done_store _).
  refine (gather_returns _ _ _ _ 1 [0] demo_pool_store demo_sched_done _
            demo_run_to_done _); reflexivity.
Defined.

Lemma concurrent_result_map_complete_witness :
  dom (results demo_done_store) = list_to_set (id <$> [example_A; example_B]) /\
  (forall ex, ex ∈ [example_A; example_B] ->
     exists result,
       results demo_done_store !! id ex = Some result /\
       length result = Z.to_nat 1) /\
  num_processed demo_done_store = Z.of_nat (length [example_A; example_B]).
Proof.
  exact (concurrent_result_map_complete demo_ok "session" [example_A; example_B]
           demo_factory 1 1 false demo_store (results demo_done_store)
           demo_done_store demo_arun_returns).
Defined.

Lemma sequential_mode_returns_last_entry_witness :
  exists result s',
    run_on_dataset demo_boom "session" [example_A; example_B; example_C]
      demo_factory 2 false demo_store =
      (Ret {[ id (List.last [example_B; example_C] example_A) := result ]}, s') /\
    length result = Z.to_nat 2.
Proof.
  apply (sequential_mode_returns_last_entry demo_boom "session" example_A
           [example_B; example_C] demo_factory 2 false demo_store tt 0).
  - reflexivity.
  - exact demo_boom_raises_only_Exception.
Defined.

Lemma no_repetitions_is_a_no_op_witness :
  llm_or_chain demo_ok Sync example_A 0 demo_factory (-3) demo_store_tagged
    = (Ret [], demo_store_tagged).
Proof.
  apply (no_repetitions_is_a_no_op demo_ok Sync example_A 0 demo_factory (-3)
           demo_store_tagged).
  lia.
Defined.

Lemma evaluator_touches_only_its_tracer_witness :
  only_tracer_touched 0 demo_store_tagged
    (snd (llm_or_chain demo_interrupt Async example_A 0 demo_factory 2
            demo_store_tagged)).
Proof.
  apply (evaluator_touches_only_its_tracer demo_interrupt Async example_A 0
           demo_factory 2 demo_store_tagged
           (fst (llm_or_chain demo_interrupt Async example_A 0 demo_factory 2
                   demo_store_tagged))).
  vm_compute. reflexivity.
Defined.

Lemma demo_ok_keeps_tag : callees_keep_tag demo_ok.
Proof. split; intros; intros t w r t' w' [= _ <- _]; reflexivity. Qed.

Lemma calls_carry_the_example_tag_witness :
  exists new,
    events (snd (llm_or_chain demo_ok Sync example_A 0 (@DirectModel demo_runtime TextLLM) 2
                   demo_store_tagged))
      = events demo_store_tagged ++ new /\
    Forall (fun e => forall tag, call_tag e = Some tag -> tag = Some (id example_A))
      new.
Proof.
  apply (calls_carry_the_example_tag demo_ok Sync example_A 0 (@DirectModel demo_runtime TextLLM)
           2 demo_store_tagged
           (fst (llm_or_chain demo_ok Sync example_A 0 (@DirectModel demo_runtime TextLLM) 2
                   demo_store_tagged))).
  - exact demo_ok_keeps_tag.
  - simpl. lia.
  - vm_compute. reflexivity.
Defined.

Lemma sequential_batch_calls_witness :
  exists name s1 dataset_id s2 examples s3,
    _get_session_name (fun _ => "LLM") (fun _ => "Chain")
      (fun _ => "2023-05-01-12-00-00") None demo_factory "qa" demo_store
      = (Ret name, s1) /\
    outside demo_read_dataset s1 = (Ret dataset_id, s2) /\
    outside (demo_list_examples dataset_id) s2 = (Ret examples, s3) /\
    run_on_dataset demo_ok name examples demo_factory 3 true s3
      = (Ret demo_last_entry, demo_store_after_call) /\
    count_events is_factory_call (events demo_store_after_call) =
      count_events is_factory_call (events demo_store)
      + length examples * Z.to_nat 3 + 1 /\
    count_events is_tracer_setup (events demo_store_after_call) =
      count_events is_tracer_setup (events demo_store) + 1.
Proof.
  apply (sequential_batch_calls demo_ok (fun _ => "LLM") (fun _ => "Chain")
           (fun _ => "2023-05-01-12-00-00") (fun _ => demo_read_dataset)
           demo_list_examples "qa" (fun w => (Ret w, S w)) 3 None true demo_store
           demo_last_entry demo_store_after_call).
  vm_compute. reflexivity.
Defined.

(** On the dataset [A, B] with three repetitions and no session name the
    factory is called seven times. *)
Example seven_factory_calls :
  count_events is_factory_call (events demo_store_after_call) = 7 /\
  length [example_A; example_B] * Z.to_nat 3 = 6.
Proof. split; vm_compute; reflexivity. Qed.

Lemma pool_is_n_fresh_tracers_witness :
  1 = Z.to_nat 1 /\
  [0] = seq (length (heap demo_store)) (Z.to_nat 1) /\
  events demo_pool_store =
    events demo_store ++ replicate (Z.to_nat 1) (EvTracerSetup "session") /\
  num_processed demo_pool_store = 0%Z /\
  results demo_pool_store = results demo_store /\
  exists new,
    heap demo_pool_store = heap demo_store ++ new /\
    length new = Z.to_nat 1 /\
    Forall (fun t => session_name t = "session") new.
Proof.
  apply (pool_is_n_fresh_tracers "session" 1 demo_store 1 [0] demo_pool_store).
  reflexivity.
Defined.

Lemma no_tracer_held_twice_witness :
  NoDup (tracer_queue demo_sched_holding ++ held (tasks demo_sched_holding)) /\
  (forall i j h,
     tasks demo_sched_holding !! i = Some (Holding h) ->
     tasks demo_sched_holding !! j = Some (Holding h) -> i = j) /\
  (forall i h,
     tasks demo_sched_holding !! i = Some (Holding h) ->
     h ∉ tracer_queue demo_sched_holding).
Proof.
  apply (no_tracer_held_twice demo_funcs "session" 1 demo_store 1 [0]
           demo_pool_store demo_sched_holding).
  - exact (proj1 demo_sched_holding_reachable).
  - exact (proj2 demo_sched_holding_reachable).
Defined.

Lemma concurrent_batch_contains_failures_witness :
  (forall out s',
     arun_on_dataset demo_boom "session" [example_A; example_B] demo_factory 1 2
       false demo_store out s' ->
     exists m, out = Ret m) /\
  ((0 < 1)%Z ->
   exists m s',
     arun_on_dataset demo_boom "session" [example_A; example_B] demo_factory 1 2
       false demo_store (Ret m) s').
Proof.
  apply (concurrent_batch_contains_failures demo_boom "session"
           [example_A; example_B] demo_factory 1 2 false demo_store 1 [0]
           demo_pool_store).
  - exact demo_boom_raises_only_Exception.
  - reflexivity.
Defined.

Lemma session_name_costs_one_factory_call_witness :
  let naming := _get_session_name (fun _ => "LLM") (fun _ => "Chain")
                  (fun _ => "2023-05-01-12-00-00") None in
  (fst (naming demo_factory "qa" demo_store)
     = Ret "qa-Chain-2023-05-01-12-00-00" /\
   events (snd (naming demo_factory "qa" demo_store))
     = events demo_store ++ [EvFactory (Ret 0)]) /\
  (fst (naming demo_failing_factory "qa" demo_store)
     = Raise demo_connection_error /\
   events (snd (naming demo_failing_factory "qa" demo_store))
     = events demo_store ++ [EvFactory (Raise demo_connection_error)]).
Proof.
  split.
  - refine (proj1 (proj2 (proj2 (proj2 (proj2 (proj2 (proj2 (proj2
      (session_name_costs_one_factory_call
         (fun _ => "LLM") (fun _ => "Chain") (fun _ => "2023-05-01-12-00-00")
         None demo_factory "qa" demo_store _ _ eq_refl))))))))
      (fun w => (Ret w, S w)) 0 1 eq_refl eq_refl eq_refl).
  - refine (proj1 (proj2 (proj2 (proj2 (proj2 (proj2 (proj2
      (session_name_costs_one_factory_call
         (fun _ => "LLM") (fun _ => "Chain") (fun _ => "2023-05-01-12-00-00")
         None demo_failing_factory "qa" demo_store _ _ eq_refl)))))))
      (fun w => (Raise demo_connection_error, w)) demo_connection_error 0
      eq_refl eq_refl eq_refl).
Defined.

Lemma is_localhost_ignores_port_witness :
  _is_localhost "http://localhost:8000" = _is_localhost "http://localhost".
Proof.
  apply (is_localhost_ignores_port "http://localhost:8000" "http://localhost"
           "localhost" "8000"); reflexivity.
Defined.

Lemma seeded_tenant_lookup_attempts_witness :
  tenant_headers None !! "x-api-key" = None /\
  exists k,
    1 <= k <= 3 /\
    sent demo_net_answered =
      sent demo_net ++
      replicate k ("http://localhost:8000" +:+ "/tenants", tenant_headers None) /\
    (forall e, @Ret string "tenant-1" = Raise e -> is_Exception e = true ->
       k = 3 /\ exists last, e = RetryError last /\ is_Exception last = true) /\
    (forall tenant, Ret "tenant-1" = Ret tenant ->
       exists n0,
         get_seeded_tenant_id_attempt "http://localhost:8000" None n0
           = (Ret tenant, mkNet 3 (replicate 3 demo_tenant_request))).
Proof.
  apply (seeded_tenant_lookup_attempts "http://localhost:8000" None demo_net
           (Ret "tenant-1") demo_net_answered).
  vm_compute. reflexivity.
Defined.

Lemma hosted_or_unresolvable_needs_api_key_witness :
  validate_api_key_if_hosted
    (mkValues (Some (Some "https://api.example.com")) (Some "") None) demo_net =
    (Raise (mkExn ValueError
              "API key must be provided when using hosted LangChain+ API"),
     demo_net).
Proof.
  apply (hosted_or_unresolvable_needs_api_key
           (mkValues (Some (Some "https://api.example.com")) (Some "") None)
           "https://api.example.com" "api.example.com" demo_net).
  - reflexivity.
  - reflexivity.
  - right. eexists. split; reflexivity.
  - reflexivity.
Defined.

